(** * graphql-freeze runtime: request encoder and response decoder

    A shallow embedding of [runtime/src/request-encoder.ts] (the class
    [GraphQLRequest] and [encodeRequest]), of the value codecs of the
    runtime's index module ([decodeObject], [decodeList], [decodeNull],
    [encodeNull], [encodeList], [encodeObject]) and of the installer's
    [getExecutableName], together with the properties the specification
    states about them and further properties read off the code. *)

From stdpp Require Import base strings list gmap pretty.

#[local] Set Warnings "-register-all".

(** ** JavaScript values

    The runtime is untyped at the value level: selections, arguments and
    wire responses are all [unknown].  The values modelled are the JSON
    values and [undefined] (no functions, symbols or bigints).  Numbers
    are IEEE doubles; the code never computes with them, it only asks
    [typeof].  The property list of an object is kept in the order
    [Object.entries] yields it. *)

Inductive number :=
| NaN
| Infinity (negative : bool)
| Float (m e : Z).

Definition int (z : Z) : number := Float z 0.

Inductive JsValue :=
| VUndefined
| VNull
| VBoolean (b : bool)
| VNumber (n : number)
| VString (s : string)
| VArray (items : list JsValue)
| VObject (props : list (string * JsValue)).

Definition typeof (v : JsValue) : string :=
  match v with
  | VUndefined => "undefined"
  | VNull => "object"
  | VBoolean _ => "boolean"
  | VNumber _ => "number"
  | VString _ => "string"
  | VArray _ => "object"
  | VObject _ => "object"
  end.

Definition Array_isArray (v : JsValue) : bool :=
  match v with VArray _ => true | _ => false end.

(** [v === null || v === undefined], also what [v == null] tests. *)
Definition nullish (v : JsValue) : bool :=
  match v with VUndefined | VNull => true | _ => false end.

(** ** Errors

    Every [throw new Error(...)] of the two modules, named after the
    specification's taxonomy, with the values its message interpolates.
    [TypeError] is what the JavaScript runtime itself raises. *)

Inductive error :=
| UnknownField (fieldName : string)
    (* request-encoder.ts:61  "Encoder has no field for ${fieldName} on ..." *)
| ExpectedObject (obj : JsValue)
    (* request-encoder.ts:69 and decodeObject  "Expected object, but instead got ${obj}" *)
| MissingSubCodec (field : string)
    (* request-encoder.ts:79  "Missing encode prop for ${field} in ..." *)
| InvalidSelectionShape (value : JsValue) (field : string)
    (* request-encoder.ts:83  "Expected number, array or object, but instead got ..." *)
| MissingArgsCodec
    (* request-encoder.ts:89  "Missing args prop on ..." *)
| UnknownArgument (argName : string)
    (* request-encoder.ts:97  "No encoding found for argument ${argName}" *)
| MissingSubCodecOfFunction
    (* request-encoder.ts:117 "Missing encode prop on ..." *)
| InvalidFunctionSelectionShape (fieldRequest : JsValue)
    (* request-encoder.ts:127 "Field request for function expected 1 or object, ..." *)
| MissingDecoder (fieldName : string)
    (* decodeObject  "Missing decoder for ${fieldName} on ..." *)
| ExpectedArray (value : JsValue)
    (* decodeList, encodeList  "Expected array, but instead got ${value}" *)
| TypeError
| UserError (message : string).

Inductive result (A : Type) :=
| Ok (a : A)
| Throw (e : error).
Arguments Ok {A} a.
Arguments Throw {A} e.

#[global] Instance result_ret : MRet result := λ A a, Ok a.
#[global] Instance result_bind : MBind result := λ A B f m,
  match m with Ok a => f a | Throw e => Throw e end.

#[global] Instance result_fmap : FMap result := λ A B f m,
  match m with Ok a => Ok (f a) | Throw e => Throw e end.

(** ** Built-in operations on values *)

Definition indexed {A} (l : list A) : list (string * A) :=
  imap (λ i x, (pretty i, x)) l.

Fixpoint chars (s : string) : list JsValue :=
  match s with
  | EmptyString => []
  | String c s' => VString (String c EmptyString) :: chars s'
  end.

(** [Object.entries(v)]: own enumerable string-keyed properties. *)
Definition Object_entries (v : JsValue) : result (list (string * JsValue)) :=
  match v with
  | VUndefined | VNull => Throw TypeError
  | VBoolean _ | VNumber _ => Ok []
  | VString s => Ok (indexed (chars s))
  | VArray items => Ok (indexed items)
  | VObject props => Ok props
  end.

(** [value[i]] on an array: [undefined] out of range. *)
Definition item (items : list JsValue) (i : nat) : JsValue :=
  default VUndefined (items !! i).

(** [target[key] = v] on a property list: overwrite in place or append. *)
Fixpoint set_prop (target : list (string * JsValue)) (key : string) (v : JsValue)
  : list (string * JsValue) :=
  match target with
  | [] => [(key, v)]
  | (k, w) :: rest =>
      if decide (k = key) then (k, v) :: rest else (k, w) :: set_prop rest key v
  end.

(** [Object.assign(a, b)] *)
Definition Object_assign (a b : list (string * JsValue)) : list (string * JsValue) :=
  foldl (λ acc kv, set_prop acc kv.1 kv.2) a b.

(** [segments.join(sep)] on an array of strings. *)
Fixpoint join (sep : string) (segments : list string) : string :=
  match segments with
  | [] => ""
  | [s] => s
  | s :: rest => s +:+ sep +:+ join sep rest
  end.

(** ** Codecs

    [Codec = Record<string, CodecField>].  The lazy [codec?: () => Codec]
    of a field is a handle into the table of the schema's codecs, so that
    object types may refer to each other cyclically. *)

Record ArgCodec := {
  type : string;
  encode : JsValue → result JsValue
}.

Record CodecField := {
  decode : JsValue → result JsValue;
  codec : option string;
  args : option (gmap string ArgCodec)
}.

Abbreviation Codec := (gmap string CodecField).

(** Member access [o[key]] on a plain object literal goes through the
    prototype chain: a key that is not an own property but names a member
    of [Object.prototype] yields that member, not [undefined]. *)

Definition Object_prototype : list string :=
  [ "constructor"; "hasOwnProperty"; "isPrototypeOf"; "propertyIsEnumerable";
    "toLocaleString"; "toString"; "valueOf"; "__proto__";
    "__defineGetter__"; "__defineSetter__"; "__lookupGetter__"; "__lookupSetter__" ].

Inductive member (A : Type) :=
| Own (a : A)
| Inherited
| Undefined.
Arguments Own {A} a.
Arguments Inherited {A}.
Arguments Undefined {A}.

Definition get {A} (o : gmap string A) (key : string) : member A :=
  match o !! key with
  | Some a => Own a
  | None => if bool_decide (key ∈ Object_prototype) then Inherited else Undefined
  end.

(** [`${codec}`] in an error message.  A codec is a plain object whose
    members are field descriptors, themselves objects: the conversion to
    a string calls the inherited [toString] and gives "[object Object]",
    unless the codec has an own member named [toString], which hides the
    inherited method and cannot be called (nor does the inherited
    [valueOf] give a primitive), so that the conversion throws. *)
Definition interpolate (codec_ : Codec) : result string :=
  if decide (is_Some (codec_ !! "toString")) then Throw TypeError
  else Ok "[object Object]".

(** The members of [Object.prototype] are built-in functions (or the
    prototype itself); none of them has a [decode], [codec], [args] or
    [encode] property. *)
Definition builtin : CodecField :=
  {| decode := λ _, Throw TypeError; codec := None; args := None |}.

(** ** The encoder's state: [class GraphQLRequest] *)

Record RequestVariable := {
  var_type : string;
  var_name : string;
  var_value : JsValue
}.

Record GraphQLRequest := {
  variables : list RequestVariable;
  variableCounter : nat
}.

(** [new GraphQLRequest()] *)
Definition GraphQLRequest_new : GraphQLRequest :=
  {| variables := []; variableCounter := 1 |}.

(** Methods run against the instance and may throw. *)
Definition M (A : Type) : Type := GraphQLRequest → result (A * GraphQLRequest).

#[global] Instance M_ret : MRet M := λ A a this, Ok (a, this).
#[global] Instance M_bind : MBind M := λ A B f m this,
  match m this with
  | Ok (a, this') => f a this'
  | Throw e => Throw e
  end.

Definition throw {A} (e : error) : M A := λ _, Throw e.

Definition lift {A} (r : result A) : M A := λ this,
  match r with Ok a => Ok (a, this) | Throw e => Throw e end.

Definition newVariableName : M string := λ this,
  Ok ("v" +:+ pretty (variableCounter this),
      {| variables := variables this; variableCounter := S (variableCounter this) |}).

Definition push (v : RequestVariable) : M unit := λ this,
  Ok (tt, {| variables := variables this ++ [v]; variableCounter := variableCounter this |}).

Definition variablesSupplyList (this : GraphQLRequest) : string :=
  if decide (length (variables this) = 0) then ""
  else
    let segments := join ", " ((λ e, "$" +:+ var_name e +:+ ": " +:+ var_type e) <$> variables this) in
    "(" +:+ segments +:+ ")".

Definition variablesJsonObject (this : GraphQLRequest) : option (list (string * JsValue)) :=
  if decide (length (variables this) = 0) then None
  else Some (foldl Object_assign [] ((λ e, [(var_name e, var_value e)]) <$> variables this)).

Section Encoder.

(** The codecs of the schema, by handle: what [field.codec()] returns. *)
Context (force : string → Codec).

(** The [.filter(...).map(...)] chain over the entries of [params]. *)
Definition encodeArg (encodeArgs : gmap string ArgCodec) (arg : string * JsValue) : M string :=
  let '(argName, argValue) := arg in
  match get encodeArgs argName with
  | Undefined => throw (UnknownArgument argName)
  | Inherited => throw TypeError   (* encodeArg.encode is not a function *)
  | Own encodeArg =>
      value ← lift (encode encodeArg argValue);
      variableName ← newVariableName;
      _ ← push {| var_name := variableName; var_type := type encodeArg; var_value := value |};
      mret (argName +:+ ": $" +:+ variableName)
  end.

(** The three methods call each other; the recursion is structural on
    the selection.  [encodeFunction_] and [encodeField_] are the method
    bodies with the recursive call left open; [encodeObject] closes the
    knot, and the equations [encodeObject_eq], [encodeField_eq] and
    [encodeFunction_eq] below give each method as the source has it. *)

Definition encodeFunction_ (encodeSub : Codec → M string)
    (field : string) (params fieldRequest : JsValue) (encoder : CodecField) : M string :=
  match args encoder with
  | None => throw MissingArgsCodec
  | Some encodeArgs =>
      entries ← lift (Object_entries params);
      input ← mapM (encodeArg encodeArgs) (filter (λ e, nullish e.2 = false) entries);
      if decide (typeof fieldRequest = "number") then
        if decide (length input = 0) then mret field
        else mret (field +:+ "(" +:+ join ", " input +:+ ")")
      else if decide (typeof fieldRequest = "object") then
        match codec encoder with
        | None => throw MissingSubCodecOfFunction
        | Some sub =>
            subRequest ← encodeSub (force sub);
            if decide (length input = 0) then mret (field +:+ " " +:+ subRequest)
            else mret (field +:+ "(" +:+ join ", " input +:+ ") " +:+ subRequest)
        end
      else throw (InvalidFunctionSelectionShape fieldRequest)
  end.

(** [this.encodeObject(value[1], ·)]; [value[1]] is [undefined] on a
    short array, which [encodeObject] rejects. *)
Definition encodeSecond (encodeObject : JsValue → Codec → M string)
    (items : list JsValue) : Codec → M string :=
  match items with
  | _ :: fieldRequest :: _ => encodeObject fieldRequest
  | _ => λ _, throw (ExpectedObject VUndefined)
  end.

Definition encodeField_ (encodeObject : JsValue → Codec → M string)
    (field : string) (value : JsValue) (codec_ : CodecField) : M string :=
  match value with
  | VNumber _ => mret field
  | VArray items =>
      encodeFunction_ (encodeSecond encodeObject items)
        field (item items 0) (item items 1) codec_
  | _ =>
      match codec codec_ with
      | None => throw (MissingSubCodec field)
      | Some sub =>
          if decide (typeof value = "object") then
            nested ← encodeObject value (force sub);
            mret (field +:+ " " +:+ nested)
          else throw (InvalidSelectionShape value field)
      end
  end.

Definition encodeEntry (encodeField : string → JsValue → CodecField → M string)
    (codec_ : Codec) (fieldName : string) (fieldValue : JsValue) : M string :=
  match get codec_ fieldName with
  | Undefined => _ ← lift (interpolate codec_); throw (UnknownField fieldName)
  | Inherited => encodeField fieldName fieldValue builtin
  | Own encoderField => encodeField fieldName fieldValue encoderField
  end.

(** [entries.map(f)] with a callback that runs against the instance:
    entries are visited left to right, the first throw aborts. *)
Definition mapM_indexed {A B} (f : nat → A → M B) : nat → list A → M (list B) :=
  fix go i l :=
    match l with
    | [] => mret []
    | x :: l => y ← f i x; k ← go (S i) l; mret (y :: k)
    end.

Fixpoint encodeObject (obj : JsValue) (codec_ : Codec) {struct obj} : M string :=
  match obj with
  | VObject props =>
      request ← mapM (λ '(fieldName, fieldValue),
                   encodeEntry (encodeField_ encodeObject) codec_ fieldName fieldValue) props;
      mret ("{ " +:+ join " " request +:+ " }")
  | VArray items =>
      request ← mapM_indexed (λ i fieldValue,
                   encodeEntry (encodeField_ encodeObject) codec_ (pretty i) fieldValue) 0 items;
      mret ("{ " +:+ join " " request +:+ " }")
  | _ => throw (ExpectedObject obj)
  end.

Definition encodeField : string → JsValue → CodecField → M string :=
  encodeField_ encodeObject.

Definition encodeFunction (field : string) (params fieldRequest : JsValue)
    (encoder : CodecField) : M string :=
  encodeFunction_ (encodeObject fieldRequest) field params fieldRequest encoder.

Record EncodedRequest := {
  query : string;
  variablesJson : option (list (string * JsValue))   (* [None] is [undefined] *)
}.

Definition encodeRequest (operationType : string) (request : JsValue) (codec_ : Codec)
  : result EncodedRequest :=
  match encodeObject request codec_ GraphQLRequest_new with
  | Throw e => Throw e
  | Ok (encodedObject, encoding) =>
      Ok {| query := operationType +:+ variablesSupplyList encoding +:+ " " +:+ encodedObject;
            variablesJson := variablesJsonObject encoding |}
  end.

End Encoder.

(** ** Instances of [GraphQLRequest] in the store

    The methods above run against one instance.  Here the instances live
    in a store, [new GraphQLRequest()] allocates a cell and a method call
    reads and writes the cell of its receiver, so that what one call of
    [encodeRequest] leaves behind is there when the next one runs.  The
    module has no other mutable state: no variable outside the class, no
    static member.  An exception leaves the function, and the store with
    it: the store at a throw is not described. *)
Module Store.

Abbreviation Store := (list GraphQLRequest).

(** [new GraphQLRequest()]: a fresh cell, with the field initialisers of
    the class. *)
Definition new_GraphQLRequest (store : Store) : nat * Store :=
  (length store, store ++ [GraphQLRequest_new]).

(** [encoding.method(...)] *)
Definition call {A} (method : M A) (encoding : nat) (store : Store)
  : result (A * Store) :=
  match store !! encoding with
  | None => Throw TypeError
  | Some this =>
      match method this with
      | Ok (a, this') => Ok (a, <[encoding := this']> store)
      | Throw e => Throw e
      end
  end.

Definition encodeRequest (force : string → Codec)
    (operationType : string) (request : JsValue) (codec_ : Codec) (store : Store)
  : result (EncodedRequest * Store) :=
  let '(encoding, store) := new_GraphQLRequest store in
  match call (encodeObject force request codec_) encoding store with
  | Throw e => Throw e
  | Ok (encodedObject, store) =>
      match call (λ this, Ok (variablesSupplyList this, this)) encoding store with
      | Throw e => Throw e
      | Ok (supplyList, store) =>
          let encodedRequest := operationType +:+ supplyList +:+ " " +:+ encodedObject in
          match call (λ this, Ok (variablesJsonObject this, this)) encoding store with
          | Throw e => Throw e
          | Ok (variables_, store) =>
              Ok ({| query := encodedRequest; variablesJson := variables_ |}, store)
          end
      end
  end.


End Store.

(** ** The response decoder: [decodeObject] *)

Definition is_null (v : JsValue) : bool :=
  match v with VNull => true | _ => false end.

(** The callback of [Object.entries(value).map(...)]:
    [decoder[fieldName]?.decode] is [undefined] both when the codec has no
    such member and when the member is inherited from the prototype. *)
Definition decodeEntry (decoder : Codec) (entry : string * JsValue)
  : result (list (string * JsValue)) :=
  let '(fieldName, fieldValue) := entry in
  match get decoder fieldName with
  | Own field => decoded ← decode field fieldValue; mret [(fieldName, decoded)]
  | Inherited | Undefined => _ ← interpolate decoder; Throw (MissingDecoder fieldName)
  end.

Definition decodeObject (value : JsValue) (decoder : Codec)
  : result (list (string * JsValue)) :=
  if negb (nullish value) && bool_decide (typeof value = "object") then
    entries ← Object_entries value;
    parts ← mapM (decodeEntry decoder) entries;
    mret (foldl Object_assign [] parts)
  else Throw (ExpectedObject value).

Definition decodeObjectResponse (value : JsValue) (decoder : Codec)
  : result (list (string * JsValue)) :=
  decodeObject value decoder.

(** ** Specification vocabulary *)

Definition index (v : JsValue) (i : nat) : JsValue :=
  match v with VArray items => item items i | _ => VUndefined end.

Definition is_object (v : JsValue) : bool :=
  match v with VObject _ => true | _ => false end.

Section JsValue_induction.

Context (P : JsValue → Prop).
Context (Hundefined : P VUndefined) (Hnull : P VNull)
        (Hboolean : ∀ b, P (VBoolean b)) (Hnumber : ∀ n, P (VNumber n))
        (Hstring : ∀ s, P (VString s))
        (Harray : ∀ items, Forall P items → P (VArray items))
        (Hobject : ∀ props, Forall (λ p, P p.2) props → P (VObject props)).

Fixpoint JsValue_nested_ind (v : JsValue) : P v :=
  match v with
  | VUndefined => Hundefined
  | VNull => Hnull
  | VBoolean b => Hboolean b
  | VNumber n => Hnumber n
  | VString s => Hstring s
  | VArray items =>
      Harray items
        ((fix all (l : list JsValue) : Forall P l :=
            match l with
            | [] => @List.Forall_nil _ P
            | x :: l' => @List.Forall_cons _ P x l' (JsValue_nested_ind x) (all l')
            end) items)
  | VObject props =>
      Hobject props
        ((fix all (l : list (string * JsValue)) : Forall (λ p, P p.2) l :=
            match l with
            | [] => @List.Forall_nil _ _
            | p :: l' => @List.Forall_cons _ (λ p, P p.2) p l' (JsValue_nested_ind p.2) (all l')
            end) props)
  end.

End JsValue_induction.

(** The names [newVariableName] hands out, [count] of them from [first]. *)
Definition varNames (first count : nat) : list string :=
  (λ i, "v" +:+ pretty i) <$> seq first count.

(** The fragments [argName: $vN] of one argument list. *)
Definition argFragments (first : nat) (argNames : list string) : list string :=
  imap (λ i argName, argName +:+ ": $v" +:+ pretty (first + i)) argNames.

(** The arguments of [params] that are actually supplied. *)
Definition supplied (params : JsValue) : list (string * JsValue) :=
  match Object_entries params with
  | Ok entries => filter (λ e, nullish e.2 = false) entries
  | Throw _ => []
  end.

(** All supplied arguments of a selection, left to right and depth
    first: those of an argumented field come before those of its
    sub-selection. *)
Definition fieldArguments_ (objectArguments : JsValue → list (string * JsValue))
    (value : JsValue) : list (string * JsValue) :=
  match value with
  | VArray items =>
      supplied (item items 0) ++
      match items with
      | _ :: fieldRequest :: _ => objectArguments fieldRequest
      | _ => []
      end
  | VObject _ => objectArguments value
  | _ => []
  end.

Fixpoint suppliedArguments (obj : JsValue) : list (string * JsValue) :=
  match obj with
  | VObject props => flat_map (λ p, fieldArguments_ suppliedArguments p.2) props
  | VArray items => flat_map (fieldArguments_ suppliedArguments) items
  | _ => []
  end.

Definition fieldArguments : JsValue → list (string * JsValue) :=
  fieldArguments_ suppliedArguments.

(** The number of argumented fields (tuples) of a selection. *)
Definition fieldCount_ (objectCount : JsValue → nat) (value : JsValue) : nat :=
  match value with
  | VArray items =>
      1 + match items with
          | _ :: fieldRequest :: _ => objectCount fieldRequest
          | _ => 0
          end
  | VObject _ => objectCount value
  | _ => 0
  end.

Fixpoint argumentedFields (obj : JsValue) : nat :=
  match obj with
  | VObject props => sum_list (map (λ p, fieldCount_ argumentedFields p.2) props)
  | VArray items => sum_list (map (fieldCount_ argumentedFields) items)
  | _ => 0
  end.

(** [var] is the variable recorded for the argument [arg] of a field
    whose descriptor has the argument encoders [encodeArgs]: its type and
    its value come from the descriptor's own entry [encodeArgs[argName]]. *)
Definition encodes (encodeArgs : gmap string ArgCodec) (arg : string * JsValue)
    (var : RequestVariable) : Prop :=
  ∃ encodeArg : ArgCodec,
    encodeArgs !! arg.1 = Some encodeArg ∧
    var_type var = type encodeArg ∧
    encode encodeArg arg.2 = Ok (var_value var).

(** A supplied argument together with the [args] of the descriptor of
    the field it is passed to. *)
Abbreviation Argument := (gmap string ArgCodec * (string * JsValue))%type.

(** Between [this] and [this'] exactly the variables of [arguments] were
    pushed, in order, under the next free names. *)
Definition allocates (arguments : list Argument)
    (this this' : GraphQLRequest) : Prop :=
  ∃ vars,
    variables this' = variables this ++ vars ∧
    variableCounter this' = variableCounter this + length vars ∧
    var_name <$> vars = varNames (variableCounter this) (length vars) ∧
    Forall2 (λ a var, encodes a.1 a.2 var) arguments vars.

Definition flat_map_indexed {A B} (f : nat → A → list B) : nat → list A → list B :=
  fix go i l :=
    match l with
    | [] => []
    | x :: l => f i x ++ go (S i) l
    end.

Section Recorded.

Context (force : string → Codec).

(** The supplied arguments of a selection in traversal order, as
    [suppliedArguments] lists them, each with the [args] of the descriptor
    the codec has for its field. *)
Definition recordedField_ (recordedArguments : JsValue → Codec → list Argument)
    (value : JsValue) (codec_ : CodecField) : list Argument :=
  match value with
  | VArray items =>
      match args codec_ with
      | Some encodeArgs => (λ arg, (encodeArgs, arg)) <$> supplied (item items 0)
      | None => []
      end ++
      match items, codec codec_ with
      | _ :: fieldRequest :: _, Some sub => recordedArguments fieldRequest (force sub)
      | _, _ => []
      end
  | VObject _ =>
      match codec codec_ with
      | Some sub => recordedArguments value (force sub)
      | None => []
      end
  | _ => []
  end.

Definition recordedEntry (recordedField : JsValue → CodecField → list Argument)
    (codec_ : Codec) (fieldName : string) (fieldValue : JsValue) : list Argument :=
  match get codec_ fieldName with
  | Undefined => []
  | Inherited => recordedField fieldValue builtin
  | Own encoderField => recordedField fieldValue encoderField
  end.

Fixpoint recordedArguments (obj : JsValue) (codec_ : Codec) {struct obj} : list Argument :=
  match obj with
  | VObject props =>
      flat_map (λ p, recordedEntry (recordedField_ recordedArguments) codec_ p.1 p.2) props
  | VArray items =>
      flat_map_indexed (λ i fieldValue,
        recordedEntry (recordedField_ recordedArguments) codec_ (pretty i) fieldValue) 0 items
  | _ => []
  end.

Definition recordedField : JsValue → CodecField → list Argument :=
  recordedField_ recordedArguments.

End Recorded.

(** The entry [kv] of the variable mapping holds the argument [a]
    encoded by the descriptor's own encoder for that argument name. *)
Definition binds (a : Argument) (kv : string * JsValue) : Prop :=
  ∃ encodeArg : ArgCodec,
    a.1 !! a.2.1 = Some encodeArg ∧ encode encodeArg a.2.2 = Ok kv.2.

(** A run from [this] to [this'] recorded the arguments [recorded], which
    are the arguments [plain] with their descriptors. *)
Definition traces (recorded : list Argument) (plain : list (string * JsValue))
    (this this' : GraphQLRequest) : Prop :=
  allocates recorded this this' ∧ recorded.*2 = plain.

(** The mapping as a property list; [undefined] has no keys. *)
Definition mapping (variablesJson_ : option (list (string * JsValue)))
  : list (string * JsValue) :=
  default [] variablesJson_.

Definition object_allocates (force : string → Codec) (obj : JsValue) : Prop :=
  ∀ codec_ this s this',
    encodeObject force obj codec_ this = Ok (s, this') →
    traces (recordedArguments force obj codec_) (suppliedArguments obj) this this'.

Definition field_allocates (force : string → Codec) (value : JsValue) : Prop :=
  ∀ field codec_ this s this',
    encodeField force field value codec_ this = Ok (s, this') →
    traces (recordedField force value codec_) (fieldArguments value) this this'.

(** C4, as the specification words it: a response that decodes once its
    keys unknown to the codec are left out, decodes with them as well. *)
Definition extra_keys_ignored : Prop :=
  ∀ props decoder,
    (∃ r, decodeObject (VObject (filter (λ p, is_Some (decoder !! p.1)) props)) decoder = Ok r) →
    ∃ r, decodeObject (VObject props) decoder = Ok r.

(** C5, as the specification words it. *)
Definition missing_decoder_names_every_key : Prop :=
  ∀ props decoder key v,
    (key, v) ∈ props → decoder !! key = None →
    decodeObject (VObject props) decoder = Throw (MissingDecoder key).

(** C3, as the specification words it. *)
Definition other_shapes_are_invalid (force : string → Codec) : Prop :=
  ∀ field value codec_ this,
    typeof value ≠ "number" → Array_isArray value = false → is_object value = false →
    encodeField force field value codec_ this = Throw (InvalidSelectionShape value field).

(** C6, as the specification words it. *)
Definition unknown_field_names_every_field (force : string → Codec) : Prop :=
  ∀ props codec_ field v this,
    (field, v) ∈ props → codec_ !! field = None →
    encodeObject force (VObject props) codec_ this = Throw (UnknownField field).

(** C2, as the specification words it: as many variables as there are
    argumented fields. *)
Definition one_variable_per_argumented_field (force : string → Codec) : Prop :=
  ∀ operationType request codec_ r,
    encodeRequest force operationType request codec_ = Ok r →
    (mapping (variablesJson r)).*1 = varNames 1 (argumentedFields request).

(** ** A small schema used for the concrete runs *)

Module Example.

Definition scalarField : CodecField :=
  {| decode := λ v, Ok v; codec := None; args := None |}.

Definition Int_arg : ArgCodec := {| type := "Int"; encode := λ v, Ok v |}.
Definition String_arg : ArgCodec := {| type := "String"; encode := λ v, Ok v |}.

(** [User.friends(first: Int): [User]] refers back to [User]. *)
Definition friends : CodecField :=
  {| decode := λ v, Ok v;
     codec := Some "User";
     args := Some {[ "first" := Int_arg ]} |}.

Definition User : Codec :=
  {[ "name" := scalarField; "email" := scalarField; "friends" := friends ]}.

Definition getUser : CodecField :=
  {| decode := λ v, VObject <$> decodeObject v User;
     codec := Some "User";
     args := Some {[ "id" := Int_arg; "name" := String_arg ]} |}.

Definition Query : Codec :=
  {[ "getUser" := getUser; "version" := scalarField ]}.

Definition force (handle : string) : Codec :=
  if decide (handle = "User") then User else ∅.

Definition one : JsValue := VNumber (int 1).

(** [{ getUser: [{ id: 42 }, { name: 1, email: 1 }] }] *)
Definition getUser42 : JsValue :=
  VObject [("getUser",
    VArray [ VObject [("id", VNumber (int 42))];
             VObject [("name", one); ("email", one)] ])].

(** [{ getUser: [{ id: 42, name: "Ann" }, { email: 1 }] }] *)
Definition getUserByIdAndName : JsValue :=
  VObject [("getUser",
    VArray [ VObject [("id", VNumber (int 42)); ("name", VString "Ann")];
             VObject [("email", one)] ])].

(** [{ getUser: [{ id: 42, name: null },
                    { name: 1, friends: [{ first: 3 }, { email: 1 }] }],
        version: 1 }] *)
Definition getUserWithFriends : JsValue :=
  VObject [("getUser",
    VArray [ VObject [("id", VNumber (int 42)); ("name", VNull)];
             VObject [("name", one);
                      ("friends", VArray [ VObject [("first", VNumber (int 3))];
                                           VObject [("email", one)] ])] ]);
           ("version", one)].

End Example.

(** ** The value codecs of the runtime's index module

    [decodeList], [decodeNull], [encodeNull], [encodeList] and the
    [encodeObject] for input values.  The callbacks are called with one
    argument. *)

Definition decodeList (value : JsValue) (decode : JsValue → result JsValue)
  : result (list JsValue) :=
  match value with
  | VArray items => mapM decode items
  | _ => Throw (ExpectedArray value)
  end.



Definition encodeList (value : JsValue) (encode : JsValue → result JsValue)
  : result (list JsValue) :=
  match value with
  | VArray items => mapM (λ item, encode item) items
  | _ => Throw (ExpectedArray value)
  end.

(** [Encoder = Record<string, (value: unknown) => unknown>] *)
Abbreviation Encoder := (gmap string (JsValue → result JsValue)).

Module Input.

Section Prototype.

(** What calling a member inherited from [Object.prototype] as an input
    encoder does is left open. *)
Context (inherited : string → JsValue → result JsValue).

Definition encodeEntry (encoder : Encoder) (entry : string * JsValue)
  : result (list (string * JsValue)) :=
  let '(fieldName, fieldValue) := entry in
  match get encoder fieldName with
  | Undefined => Throw (UserError ("No input encoder found for " +:+ fieldName))
  | Inherited => encoded ← inherited fieldName fieldValue; mret [(fieldName, encoded)]
  | Own encodeField => encoded ← encodeField fieldValue; mret [(fieldName, encoded)]
  end.

(** [encodeObject(value, encoder)] of the index module *)
Definition encodeObject (value : JsValue) (encoder : Encoder)
  : result (list (string * JsValue)) :=
  if negb (is_null value) && bool_decide (typeof value = "object") then
    entries ← Object_entries value;
    parts ← mapM (encodeEntry encoder) entries;
    mret (foldl Object_assign [] parts)
  else Throw (ExpectedObject value).

End Prototype.

End Input.

(** How a field of the response is decoded: under its own name, by the
    [decode] of the codec's own field of that name. *)
Definition decodes (decoder : Codec) (p q : string * JsValue) : Prop :=
  q.1 = p.1 ∧ ∃ field, decoder !! p.1 = Some field ∧ decode field p.2 = Ok q.2.

(** Whether a call returned rather than threw. *)
Definition succeeds {A} (r : result A) : bool :=
  match r with Ok _ => true | Throw _ => false end.

(** ** When a selection encodes

    The checks the encoder makes on its way through a selection, as a
    decision procedure on the selection and the codec. *)

Definition argumentsEncode (encodeArgs : gmap string ArgCodec) (params : JsValue) : bool :=
  negb (nullish params) &&
  forallb (λ arg,
     match encodeArgs !! arg.1 with
     | Some encodeArg =>
         match encode encodeArg arg.2 with Ok _ => true | Throw _ => false end
     | None => false
     end) (supplied params).

Definition forallb_indexed {A} (f : nat → A → bool) : nat → list A → bool :=
  fix go i l :=
    match l with
    | [] => true
    | x :: l => f i x && go (S i) l
    end.

Section Validity.

Context (force : string → Codec).

Definition validSecond (validObject : JsValue → Codec → bool)
    (items : list JsValue) (encoder : CodecField) : bool :=
  match items with
  | _ :: VNumber _ :: _ => true
  | _ :: fieldRequest :: _ =>
      bool_decide (typeof fieldRequest = "object") &&
      match codec encoder with
      | Some sub => validObject fieldRequest (force sub)
      | None => false
      end
  | _ => false
  end.

Definition validField_ (validObject : JsValue → Codec → bool)
    (value : JsValue) (codec_ : CodecField) : bool :=
  match value with
  | VNumber _ => true
  | VArray items =>
      match args codec_ with
      | Some encodeArgs =>
          argumentsEncode encodeArgs (item items 0) && validSecond validObject items codec_
      | None => false
      end
  | VObject _ =>
      match codec codec_ with
      | Some sub => validObject value (force sub)
      | None => false
      end
  | _ => false
  end.

Definition validEntry (validField : JsValue → CodecField → bool)
    (codec_ : Codec) (fieldName : string) (fieldValue : JsValue) : bool :=
  match get codec_ fieldName with
  | Undefined => false
  | Inherited => validField fieldValue builtin
  | Own encoderField => validField fieldValue encoderField
  end.

Fixpoint validObject (obj : JsValue) (codec_ : Codec) {struct obj} : bool :=
  match obj with
  | VObject props =>
      forallb (λ p, validEntry (validField_ validObject) codec_ p.1 p.2) props
  | VArray items =>
      forallb_indexed (λ i fieldValue,
        validEntry (validField_ validObject) codec_ (pretty i) fieldValue) 0 items
  | _ => false
  end.

Definition validField : JsValue → CodecField → bool := validField_ validObject.

End Validity.

Definition object_decided (force : string → Codec) (obj : JsValue) : Prop :=
  ∀ codec_ this, succeeds (encodeObject force obj codec_ this) = validObject force obj codec_.

Definition field_decided (force : string → Codec) (value : JsValue) : Prop :=
  ∀ field codec_ this,
    succeeds (encodeField force field value codec_ this) = validField force value codec_.

(** The class invariant of [GraphQLRequest]: the variables recorded so
    far are [v1 .. vn] and the counter is [n + 1]. *)
Definition consistent (this : GraphQLRequest) : Prop :=
  var_name <$> variables this = varNames 1 (length (variables this)) ∧
  variableCounter this = S (length (variables this)).

(** One declaration [$name: type] of the header. *)
Definition declaration (e : RequestVariable) : string :=
  "$" +:+ var_name e +:+ ": " +:+ var_type e.

(** ** The installer: [codegen-wrapper/scripts/install.ts] *)

Definition unsupported {A} (platform arch : string) : result A :=
  Throw (UserError ("Unsupported platform: " +:+ platform +:+ " or architecture: " +:+ arch)).

Definition getExecutableName (arch platform : string) : result string :=
  if decide (arch = "x64") then
    if decide (platform = "win32") then Ok "x86_64-pc-windows-msvc"
    else if decide (platform = "linux") then Ok "x86_64-unknown-linux-gnu"
    else if decide (platform = "darwin") then Ok "x86_64-apple-darwin"
    else unsupported platform arch
  else if decide (arch = "arm64") then
    if decide (platform = "win32") then Ok "aarch64-pc-windows-msvc"
    else if decide (platform = "linux") then Ok "aarch64-unknown-linux-gnu"
    else if decide (platform = "darwin") then Ok "aarch64-apple-darwin"
    else unsupported platform arch
  else unsupported platform arch.

(** The build matrix of the workflow that publishes the binaries. *)
Record Build := {
  NAME : string;
  OS : string;
  TOOLCHAIN : string;
  TARGET : string;
  BINARY_NAME : string
}.

Definition matrix : list Build :=
  [ {| NAME := "linux-x64-glibc"; OS := "ubuntu-20.04"; TOOLCHAIN := "stable";
       TARGET := "x86_64-unknown-linux-gnu"; BINARY_NAME := "graphql-freeze-codegen" |};
    {| NAME := "linux-arm64-glibc"; OS := "ubuntu-20.04"; TOOLCHAIN := "stable";
       TARGET := "aarch64-unknown-linux-gnu"; BINARY_NAME := "graphql-freeze-codegen" |};
    {| NAME := "win32-x64-msvc"; OS := "windows-2022"; TOOLCHAIN := "stable";
       TARGET := "x86_64-pc-windows-msvc"; BINARY_NAME := "graphql-freeze-codegen.exe" |};
    {| NAME := "win32-arm64-msvc"; OS := "windows-2022"; TOOLCHAIN := "stable";
       TARGET := "aarch64-pc-windows-msvc"; BINARY_NAME := "graphql-freeze-codegen.exe" |};
    {| NAME := "darwin-x64"; OS := "macos-13"; TOOLCHAIN := "stable";
       TARGET := "x86_64-apple-darwin"; BINARY_NAME := "graphql-freeze-codegen" |};
    {| NAME := "darwin-arm64"; OS := "macos-13"; TOOLCHAIN := "stable";
       TARGET := "aarch64-apple-darwin"; BINARY_NAME := "graphql-freeze-codegen" |} ].

(** ** Concrete runs *)

Example encodeRequest_nested :
  encodeRequest Example.force "query" Example.getUserWithFriends Example.Query =
  Ok {| query := "query($v1: Int, $v2: Int) { getUser(id: $v1) { name friends(first: $v2) { email } } version }";
        variablesJson := Some [("v1", VNumber (int 42)); ("v2", VNumber (int 3))] |}.
Proof. vm_compute. reflexivity. Qed.

Example encodeRequest_no_variables :
  encodeRequest Example.force "mutation" (VObject [("version", Example.one)]) Example.Query =
  Ok {| query := "mutation { version }"; variablesJson := None |}.
Proof. vm_compute. reflexivity. Qed.

Example encodeRequest_unknown_argument :
  encodeRequest Example.force "query"
    (VObject [("getUser", VArray [VObject [("age", Example.one)]; Example.one])])
    Example.Query = Throw (UnknownArgument "age").
Proof. vm_compute. reflexivity. Qed.

Example encodeRequest_not_an_object :
  encodeRequest Example.force "query" (VString "getUser") Example.Query =
  Throw (ExpectedObject (VString "getUser")).
Proof. vm_compute. reflexivity. Qed.

Example encodeField_null :
  encodeField Example.force "getUser" VNull Example.getUser GraphQLRequest_new =
  Throw (ExpectedObject VNull).
Proof. vm_compute. reflexivity. Qed.

Example decodeObject_nested :
  decodeObject
    (VObject [("getUser", VObject [("name", VString "Ann")]); ("version", Example.one)])
    Example.Query =
  Ok [("getUser", VObject [("name", VString "Ann")]); ("version", Example.one)].
Proof. vm_compute. reflexivity. Qed.

Example decodeObject_not_an_object :
  decodeObject (VString "not an object") Example.Query =
  Throw (ExpectedObject (VString "not an object")).
Proof. vm_compute. reflexivity. Qed.

(** ** The methods as the source has them *)

Section Equations.

Context (force : string → Codec).

Lemma M_bind_eq {A B} (m : M A) (f : A → M B) this :
  (m ≫= f) this =
  match m this with Ok (a, this') => f a this' | Throw e => Throw e end.
Proof. reflexivity. Qed.

Lemma mapM_nil {A B} (f : A → M B) this : mapM f [] this = Ok ([], this).
Proof. reflexivity. Qed.

Lemma mapM_cons {A B} (f : A → M B) x l this :
  mapM f (x :: l) this =
  match f x this with
  | Ok (y, this1) =>
      match mapM f l this1 with
      | Ok (k, this2) => Ok (y :: k, this2)
      | Throw e => Throw e
      end
  | Throw e => Throw e
  end.
Proof.
  change (mapM f (x :: l)) with (y ← f x; k ← mapM f l; mret (y :: k)).
  rewrite M_bind_eq. destruct (f x this) as [[y this1]|e]; [|done].
  rewrite M_bind_eq. by destruct (mapM f l this1) as [[k this2]|e].
Qed.

Lemma mapM_indexed_eq {A B} (g : string → A → M B) i l :
  mapM_indexed (λ j x, g (pretty j) x) i l =
  mapM (λ '(k, x), g k x) (imap (λ j x, (pretty (i + j), x)) l).
Proof.
  revert i. induction l as [|x l IH]; intros i; [done|].
  cbn [mapM_indexed imap]. rewrite IH, Nat.add_0_r.
  rewrite (imap_ext ((λ j y, (pretty (i + j), y)) ∘ S) (λ j y, (pretty (S i + j), y)) l).
  - reflexivity.
  - intros j y _. cbn. do 2 f_equal. lia.
Qed.

Lemma encodeSecond_eq items :
  encodeSecond (encodeObject force) items = encodeObject force (item items 1).
Proof. by destruct items as [|? [|? ?]]. Qed.

(** [encodeObject], lines 55-71 *)
Lemma encodeObject_eq obj codec_ :
  encodeObject force obj codec_ =
  if negb (is_null obj) && bool_decide (typeof obj = "object") then
    entries ← lift (Object_entries obj);
    request ← mapM (λ '(fieldName, fieldValue),
                 match get codec_ fieldName with
                 | Undefined => _ ← lift (interpolate codec_); throw (UnknownField fieldName)
                 | Inherited => encodeField force fieldName fieldValue builtin
                 | Own encoderField => encodeField force fieldName fieldValue encoderField
                 end) entries;
    mret ("{ " +:+ join " " request +:+ " }")
  else throw (ExpectedObject obj).
Proof.
  destruct obj; try reflexivity.
  cbn [encodeObject].
  rewrite (mapM_indexed_eq (λ k v, encodeEntry (encodeField_ force (encodeObject force)) codec_ k v)).
  reflexivity.
Qed.

(** [encodeField], lines 73-85 *)
Lemma encodeField_eq field value codec_ :
  encodeField force field value codec_ =
  if decide (typeof value = "number") then mret field
  else if Array_isArray value then
    encodeFunction force field (index value 0) (index value 1) codec_
  else match codec codec_ with
  | None => throw (MissingSubCodec field)
  | Some sub =>
      if decide (typeof value = "object") then
        nested ← encodeObject force value (force sub);
        mret (field +:+ " " +:+ nested)
      else throw (InvalidSelectionShape value field)
  end.
Proof.
  destruct value; try reflexivity.
  unfold encodeField, encodeFunction. cbn. by rewrite encodeSecond_eq.
Qed.

Lemma encodeField_number field n codec_ this :
  encodeField force field (VNumber n) codec_ this = Ok (field, this).
Proof. reflexivity. Qed.

(** [encodeFunction], lines 87-130 *)
Lemma encodeFunction_eq field params fieldRequest encoder :
  encodeFunction force field params fieldRequest encoder =
  match args encoder with
  | None => throw MissingArgsCodec
  | Some encodeArgs =>
      entries ← lift (Object_entries params);
      input ← mapM (encodeArg encodeArgs) (filter (λ e, nullish e.2 = false) entries);
      if decide (typeof fieldRequest = "number") then
        if decide (length input = 0) then mret field
        else mret (field +:+ "(" +:+ join ", " input +:+ ")")
      else if decide (typeof fieldRequest = "object") then
        match codec encoder with
        | None => throw MissingSubCodecOfFunction
        | Some sub =>
            subRequest ← encodeObject force fieldRequest (force sub);
            if decide (length input = 0) then mret (field +:+ " " +:+ subRequest)
            else mret (field +:+ "(" +:+ join ", " input +:+ ") " +:+ subRequest)
        end
      else throw (InvalidFunctionSelectionShape fieldRequest)
  end.
Proof. reflexivity. Qed.

End Equations.

(** ** [map] over the entries, in the two monads *)

Section MapM.

Context {A B : Type}.

Lemma mapM_result_cons (f : A → result B) x l :
  mapM f (x :: l) =
  match f x with
  | Ok y => match mapM f l with Ok k => Ok (y :: k) | Throw e => Throw e end
  | Throw e => Throw e
  end.
Proof.
  change (mapM f (x :: l)) with (y ← f x; k ← mapM f l; mret (y :: k)).
  destruct (f x) as [y|e]; [|done]. cbn. by destruct (mapM f l).
Qed.

(** The callback throws at the first entry it rejects, once the entries
    before it went through. *)
Lemma mapM_result_first_throw (f : A → result B) before x after ys e :
  mapM f before = Ok ys → f x = Throw e →
  mapM f (before ++ x :: after) = Throw e.
Proof.
  revert ys. induction before as [|b before IH]; intros ys Hb Hx.
  - cbn [app]. by rewrite mapM_result_cons, Hx.
  - cbn [app]. rewrite mapM_result_cons in Hb |- *.
    destruct (f b) as [y|]; [|done].
    destruct (mapM f before) as [k|] eqn:Hk; [|done].
    by rewrite (IH k).
Qed.

(** A rejected entry anywhere makes the whole [map] throw. *)
Lemma mapM_result_throws (f : A → result B) l x :
  x ∈ l → (∃ e, f x = Throw e) → ∃ e, mapM f l = Throw e.
Proof.
  intros Hin [e He]. induction l as [|y l IH]; [by apply elem_of_nil in Hin|].
  rewrite mapM_result_cons. apply elem_of_cons in Hin as [<-|Hin].
  - rewrite He. eauto.
  - destruct (f y); [|eauto]. destruct (IH Hin) as [e' ->]. eauto.
Qed.

Lemma mapM_first_throw (f : A → M B) before x after ys this this' e :
  mapM f before this = Ok (ys, this') → f x this' = Throw e →
  mapM f (before ++ x :: after) this = Throw e.
Proof.
  revert ys this. induction before as [|b before IH]; intros ys this Hb Hx.
  - rewrite mapM_nil in Hb. injection Hb as <- <-.
    cbn [app]. by rewrite mapM_cons, Hx.
  - cbn [app]. rewrite mapM_cons in Hb |- *.
    destruct (f b this) as [[y this1]|]; [|done].
    destruct (mapM f before this1) as [[k this2]|] eqn:Hk; [|done].
    injection Hb as <- <-. by rewrite (IH k this1).
Qed.

Lemma mapM_throws (f : A → M B) l x :
  x ∈ l → (∀ this, ∃ e, f x this = Throw e) → ∀ this, ∃ e, mapM f l this = Throw e.
Proof.
  intros Hin He. induction l as [|y l IH]; [by apply elem_of_nil in Hin|].
  intros this. rewrite mapM_cons. apply elem_of_cons in Hin as [<-|Hin].
  - destruct (He this) as [e ->]. eauto.
  - destruct (f y this) as [[z this1]|]; [|eauto].
    destruct (IH Hin this1) as [e' ->]. eauto.
Qed.

End MapM.

(** * The response decoder *)

Lemma decodeObject_object props decoder :
  decodeObject (VObject props) decoder =
  match mapM (decodeEntry decoder) props with
  | Ok parts => Ok (foldl Object_assign [] parts)
  | Throw e => Throw e
  end.
Proof. reflexivity. Qed.

Lemma interpolate_plain codec_ :
  codec_ !! "toString" = None → interpolate codec_ = Ok "[object Object]".
Proof.
  intros H. unfold interpolate. rewrite H. apply decide_False. by intros [? ?].
Qed.

Lemma decodeEntry_throws decoder fieldName fieldValue :
  decoder !! fieldName = None →
  ∃ e, decodeEntry decoder (fieldName, fieldValue) = Throw e.
Proof.
  intros H. unfold decodeEntry, get. rewrite H.
  destruct (bool_decide _); destruct (interpolate decoder); cbn; eauto.
Qed.

Lemma decodeEntry_undefined decoder fieldName fieldValue :
  decoder !! fieldName = None →
  decoder !! "toString" = None →
  decodeEntry decoder (fieldName, fieldValue) = Throw (MissingDecoder fieldName).
Proof.
  intros H Hplain. unfold decodeEntry, get. rewrite H, (interpolate_plain _ Hplain).
  by destruct (bool_decide _).
Qed.

(** C9. Decoding an object that has no keys succeeds with the empty
    mapping, whatever fields the codec declares. *)
Theorem decodeObject_no_keys value decoder :
  nullish value = false → typeof value = "object" →
  Object_entries value = Ok [] →
  decodeObject value decoder = Ok [].
Proof.
  intros Hnull Htype Hentries. unfold decodeObject.
  rewrite Hnull, Htype, Hentries. reflexivity.
Qed.

Lemma decodeObject_no_keys_witness :
  decodeObject (VObject []) Example.Query = Ok [] ∧
  Example.Query !! "getUser" ≠ None.
Proof.
  split.
  - apply (decodeObject_no_keys (VObject []) Example.Query); reflexivity.
  - vm_compute. discriminate.
Defined.

Lemma extra_keys_not_ignored : ¬ extra_keys_ignored.
Proof.
  intros H.
  destruct (H [("extraField", Example.one)] Example.Query) as [r Hr].
  - exists []. vm_compute. reflexivity.
  - vm_compute in Hr. discriminate.
Qed.

(** C4, amended. Decoding fails whenever the response has a key that the
    codec has no field for: such a key is never ignored. *)
Theorem decodeObject_rejects_extra_key value decoder entries key v :
  Object_entries value = Ok entries →
  (key, v) ∈ entries →
  decoder !! key = None →
  ∃ e, decodeObject value decoder = Throw e.
Proof.
  intros Hentries Hin Hkey. unfold decodeObject.
  destruct (negb (nullish value) && bool_decide (typeof value = "object")); [|eauto].
  rewrite Hentries. cbn.
  destruct (mapM_result_throws (decodeEntry decoder) entries (key, v) Hin) as [e ->].
  - by apply decodeEntry_throws.
  - eauto.
Qed.

Lemma decodeObject_rejects_extra_key_witness :
  ∃ e, decodeObject (VObject [("version", Example.one); ("extraField", Example.one)])
         Example.Query = Throw e.
Proof.
  apply (decodeObject_rejects_extra_key _ _
           [("version", Example.one); ("extraField", Example.one)] "extraField" Example.one).
  - reflexivity.
  - apply list_elem_of_In. simpl. auto.
  - vm_compute. reflexivity.
Defined.

Lemma missing_decoder_not_always_named : ¬ missing_decoder_names_every_key.
Proof.
  intros H.
  specialize (H [("getUser", VString "oops"); ("extraField", Example.one)]
                Example.Query "extraField" Example.one).
  assert (decodeObject
            (VObject [("getUser", VString "oops"); ("extraField", Example.one)])
            Example.Query = Throw (ExpectedObject (VString "oops"))) as Hrun
    by (vm_compute; reflexivity).
  rewrite H in Hrun; [discriminate| |].
  - apply list_elem_of_In. simpl. auto.
  - vm_compute. reflexivity.
Qed.

(** C5, amended. The entries are decoded in order and the first failure
    aborts: when the entries before a key unknown to the codec decode,
    [decodeObject] throws the missing-decoder error naming that key,
    whatever follows it.  The codec is one whose error message can be
    built: it has no member named [toString]. *)
Theorem decodeObject_missing_decoder before key v after decoder r :
  decodeObject (VObject before) decoder = Ok r →
  decoder !! key = None →
  decoder !! "toString" = None →
  decodeObject (VObject (before ++ (key, v) :: after)) decoder
  = Throw (MissingDecoder key).
Proof.
  intros Hbefore Hkey Hplain. rewrite decodeObject_object in Hbefore |- *.
  destruct (mapM (decodeEntry decoder) before) as [parts|] eqn:Hparts; [|done].
  rewrite (mapM_result_first_throw _ before (key, v) after parts (MissingDecoder key));
    [done..|].
  by apply decodeEntry_undefined.
Qed.

Lemma decodeObject_missing_decoder_witness :
  decodeObject
    (VObject ([("version", Example.one)] ++
              ("extraField", Example.one) :: [("getUser", VString "oops")]))
    Example.Query = Throw (MissingDecoder "extraField").
Proof.
  apply (decodeObject_missing_decoder [("version", Example.one)] "extraField"
           Example.one [("getUser", VString "oops")] Example.Query
           [("version", Example.one)]).
  - vm_compute. reflexivity.
  - vm_compute. reflexivity.
  - vm_compute. reflexivity.
Defined.

(** A codec with a member named [toString]: the missing decoder is
    reported by a [TypeError] raised while the message is built. *)
Example decodeObject_message_fails :
  decodeObject (VObject [("extraField", Example.one)])
    {[ "toString" := Example.scalarField ]} = Throw TypeError.
Proof. vm_compute. reflexivity. Qed.

(** * The request encoder: shape dispatch and unknown fields *)

Section Dispatch.

Context (force : string → Codec).

(** C10. Any number selects a scalar or enum leaf: [encodeField] returns
    the bare field name for every numeric value and every descriptor,
    and leaves the encoder untouched. *)
Theorem encodeField_any_number field n codec_ this :
  encodeField force field (VNumber n) codec_ this = Ok (field, this).
Proof. apply encodeField_number. Qed.

(** What [encodeField] does with a value that is no number, no array and
    no keyed object: the guard on the descriptor's sub-codec comes before
    the last shape test, so the shape error is reached only on a
    descriptor that has a sub-codec.  Numbers are tested first, arrays
    second although their [typeof] is "object", keyed objects last. *)
Lemma encodeField_other_shapes field value codec_ this :
  typeof value ≠ "number" → Array_isArray value = false → is_object value = false →
  encodeField force field value codec_ this =
    match codec codec_ with
    | None => Throw (MissingSubCodec field)
    | Some _ =>
        if is_null value then Throw (ExpectedObject VNull)
        else Throw (InvalidSelectionShape value field)
    end
  ∧ (∀ n d, encodeField force field (VNumber n) d this = Ok (field, this))
  ∧ (∀ items d,
       encodeField force field (VArray items) d this
       = encodeFunction force field (item items 0) (item items 1) d this)
  ∧ (∀ props d sub, codec d = Some sub →
       encodeField force field (VObject props) d this
       = (nested ← encodeObject force (VObject props) (force sub);
          mret (field +:+ " " +:+ nested)) this).
Proof.
  intros Hnum Harr Hobj. repeat split.
  - rewrite encodeField_eq. destruct value; try done; cbn; by destruct (codec codec_).
  - intros items d. by rewrite encodeField_eq.
  - intros props d sub Hsub. rewrite encodeField_eq. cbn. by rewrite Hsub.
Qed.

Lemma encodeObject_object props codec_ this :
  encodeObject force (VObject props) codec_ this =
  match mapM (λ '(fieldName, fieldValue),
           encodeEntry (encodeField force) codec_ fieldName fieldValue) props this with
  | Ok (request, this') => Ok ("{ " +:+ join " " request +:+ " }", this')
  | Throw e => Throw e
  end.
Proof. reflexivity. Qed.

(** C6, amended. A selection naming a field for which [codec[field]] is
    undefined never encodes: [encodeObject] throws, the field is not
    dropped.  Fields are encoded in order and the first failure aborts,
    so the error is the unknown-field error naming that field when the
    fields before it encode, whatever follows it, for a codec whose error
    message can be built (it has no member named [toString]). *)
Theorem encodeObject_unknown_field before field v after codec_ this :
  get codec_ field = Undefined →
  (∃ e, encodeObject force (VObject (before ++ (field, v) :: after)) codec_ this = Throw e)
  ∧ (codec_ !! "toString" = None →
     ∀ s this',
       encodeObject force (VObject before) codec_ this = Ok (s, this') →
       encodeObject force (VObject (before ++ (field, v) :: after)) codec_ this
       = Throw (UnknownField field)).
Proof.
  intros Hget. split.
  - rewrite encodeObject_object.
    destruct (mapM_throws
                (λ '(fieldName, fieldValue),
                   encodeEntry (encodeField force) codec_ fieldName fieldValue)
                (before ++ (field, v) :: after) (field, v)) with (this := this)
      as [e ->]; [| |eauto].
    + apply elem_of_app. right. apply elem_of_cons. by left.
    + intros st. unfold encodeEntry. rewrite Hget, M_bind_eq. unfold lift.
      destruct (interpolate codec_); eauto.
  - intros Hplain s this' Hbefore. rewrite encodeObject_object in Hbefore |- *.
    destruct (@mapM M _ _ _ _ _ before this) as [[request this1]|] eqn:Hmap; [|done].
    assert (encodeEntry (encodeField force) codec_ field v this1
            = Throw (UnknownField field)) as Hentry.
    { unfold encodeEntry. rewrite Hget, M_bind_eq. unfold lift.
      by rewrite (interpolate_plain _ Hplain). }
    by rewrite (mapM_first_throw _ before (field, v) after request this this1
                  (UnknownField field) Hmap Hentry).
Qed.

End Dispatch.

Lemma other_shapes_not_always_invalid : ¬ other_shapes_are_invalid Example.force.
Proof.
  intros H.
  specialize (H "name" (VString "yes") Example.scalarField GraphQLRequest_new).
  assert (encodeField Example.force "name" (VString "yes") Example.scalarField
            GraphQLRequest_new = Throw (MissingSubCodec "name")) as Hrun
    by reflexivity.
  rewrite H in Hrun; [discriminate|done..].
Qed.

(** C3. On the selection [{ name: "yes" }] of a scalar field the code
    does not report the invalid shape: [encodeField] tests the
    descriptor's sub-codec before the shape of the value and throws the
    missing-sub-codec error, so its shape error is out of reach on every
    field without sub-codec.  [encodeFunction] tests the shape of its
    sub-selection first: the same value on a descriptor without sub-codec
    is reported there as an invalid shape. *)
Theorem encodeField_guard_before_shape :
  encodeField Example.force "name" (VString "yes") Example.scalarField GraphQLRequest_new
  = Throw (MissingSubCodec "name")
  ∧ encodeFunction Example.force "name" (VObject []) (VString "yes")
      {| decode := λ v, Ok v; codec := None; args := Some ∅ |} GraphQLRequest_new
    = Throw (InvalidFunctionSelectionShape (VString "yes"))
  ∧ ∀ force field value codec_ this,
      typeof value ≠ "number" → Array_isArray value = false → codec codec_ = None →
      encodeField force field value codec_ this = Throw (MissingSubCodec field).
Proof.
  split; [reflexivity|]. split; [reflexivity|].
  intros force field value codec_ this Hnumber Harray Hcodec.
  rewrite encodeField_eq, decide_False, Harray, Hcodec by done. reflexivity.
Qed.

Lemma unknown_field_not_always_named : ¬ unknown_field_names_every_field Example.force.
Proof.
  intros H.
  specialize (H [("version", VObject []); ("unknownField", Example.one)]
                Example.Query "unknownField" Example.one GraphQLRequest_new).
  assert (encodeObject Example.force
            (VObject [("version", VObject []); ("unknownField", Example.one)])
            Example.Query GraphQLRequest_new = Throw (MissingSubCodec "version")) as Hrun
    by (vm_compute; reflexivity).
  rewrite H in Hrun; [discriminate| |].
  - apply list_elem_of_In. simpl. auto.
  - vm_compute. reflexivity.
Qed.

Lemma encodeObject_unknown_field_witness :
  encodeObject Example.force
    (VObject ([("getUser", VArray [VObject [("id", VNumber (int 42))]; Example.one])] ++
              ("unknownField", Example.one) :: [("version", VString "yes")]))
    Example.Query GraphQLRequest_new = Throw (UnknownField "unknownField").
Proof.
  apply (encodeObject_unknown_field Example.force
           [("getUser", VArray [VObject [("id", VNumber (int 42))]; Example.one])]
           "unknownField" Example.one [("version", VString "yes")]
           Example.Query GraphQLRequest_new)
    with (s := "{ getUser(id: $v1) }")
         (this' := {| variables := [{| var_type := "Int"; var_name := "v1";
                                      var_value := VNumber (int 42) |}];
                      variableCounter := 2 |}).
  - vm_compute. reflexivity.
  - vm_compute. reflexivity.
  - vm_compute. reflexivity.
Defined.

(** A codec with a member named [toString]: the unknown field is
    reported by a [TypeError] raised while the message is built. *)
Example encodeObject_message_fails :
  encodeObject Example.force (VObject [("unknownField", Example.one)])
    {[ "toString" := Example.scalarField ]} GraphQLRequest_new = Throw TypeError.
Proof. vm_compute. reflexivity. Qed.

(** A field name that the codec lacks but [Object.prototype] has is looked
    up successfully, so a numeric selection of it is emitted. *)
Example inherited_member_is_selected :
  encodeObject Example.force (VObject [("toString", Example.one)]) Example.Query
    GraphQLRequest_new = Ok ("{ toString }", GraphQLRequest_new).
Proof. vm_compute. reflexivity. Qed.

(** * Variables: one per supplied argument, numbered in traversal order *)

Lemma varNames_app first n m :
  varNames first (n + m) = varNames first n ++ varNames (first + n) m.
Proof. unfold varNames. by rewrite seq_app, fmap_app. Qed.

Lemma allocates_refl this : allocates [] this this.
Proof.
  exists []. rewrite app_nil_r, Nat.add_0_r. repeat split. constructor.
Qed.

Lemma allocates_trans a b this1 this2 this3 :
  allocates a this1 this2 → allocates b this2 this3 → allocates (a ++ b) this1 this3.
Proof.
  intros (va & Hva & Hca & Hna & Hfa) (vb & Hvb & Hcb & Hnb & Hfb).
  exists (va ++ vb). rewrite Hvb, Hva, Hcb, Hca, length_app, fmap_app, varNames_app.
  rewrite Hna, Hnb, Hca. repeat split.
  - by rewrite app_assoc.
  - lia.
  - by apply Forall2_app.
Qed.

Lemma allocates_length arguments this this' :
  allocates arguments this this' →
  length (variables this') = length (variables this) + length arguments ∧
  variableCounter this' = variableCounter this + length arguments.
Proof.
  intros (vars & Hv & Hc & _ & Hf). apply Forall2_length in Hf.
  rewrite Hv, Hc, length_app, Hf. done.
Qed.

Lemma traces_refl this : traces [] [] this this.
Proof. split; [apply allocates_refl|done]. Qed.

Lemma traces_trans a a' b b' this1 this2 this3 :
  traces a a' this1 this2 → traces b b' this2 this3 →
  traces (a ++ b) (a' ++ b') this1 this3.
Proof.
  intros [Ha <-] [Hb <-]. split; [by eapply allocates_trans|by rewrite fmap_app].
Qed.

Lemma encodeArg_ok encodeArgs argName argValue this fragment this' :
  encodeArg encodeArgs (argName, argValue) this = Ok (fragment, this') →
  fragment = argName +:+ ": $v" +:+ pretty (variableCounter this) ∧
  allocates [(encodeArgs, (argName, argValue))] this this'.
Proof.
  unfold encodeArg, get.
  destruct (encodeArgs !! argName) as [ac|] eqn:Hac; [|by destruct (bool_decide _)].
  rewrite M_bind_eq. unfold lift.
  destruct (encode ac argValue) as [value|] eqn:Hvalue; [|done].
  intros [= <- <-]. split; [done|].
  exists [{| var_type := type ac;
             var_name := "v" +:+ pretty (variableCounter this);
             var_value := value |}].
  cbn. repeat split; [lia|].
  constructor; [|constructor]. by exists ac.
Qed.

Lemma argFragments_cons first argName argNames :
  argFragments first (argName :: argNames) =
  (argName +:+ ": $v" +:+ pretty first) :: argFragments (S first) argNames.
Proof.
  unfold argFragments. cbn [imap]. rewrite Nat.add_0_r. f_equal.
  apply imap_ext. intros i x _. cbn. do 3 f_equal. lia.
Qed.

Lemma mapM_encodeArg_ok encodeArgs arguments this input this' :
  mapM (encodeArg encodeArgs) arguments this = Ok (input, this') →
  input = argFragments (variableCounter this) arguments.*1 ∧
  allocates ((λ arg, (encodeArgs, arg)) <$> arguments) this this'.
Proof.
  revert this input. induction arguments as [|[argName argValue] arguments IH];
    intros this input.
  - rewrite mapM_nil. intros [= <- <-]. split; [done|apply allocates_refl].
  - rewrite mapM_cons.
    destruct (encodeArg encodeArgs (argName, argValue) this) as [[fragment this1]|] eqn:Harg;
      [|done].
    destruct (mapM (encodeArg encodeArgs) arguments this1) as [[rest this2]|] eqn:Hrest;
      [|done].
    intros [= <- <-].
    apply encodeArg_ok in Harg as [-> Hone]. apply IH in Hrest as [-> Hrest].
    split.
    + cbn [fmap list_fmap fst]. rewrite argFragments_cons.
      do 2 f_equal. destruct Hone as (vars & _ & -> & _ & Hf).
      apply Forall2_length in Hf. cbn in Hf. rewrite <- Hf. lia.
    + by apply (allocates_trans [(encodeArgs, (argName, argValue))]
                  ((λ arg, (encodeArgs, arg)) <$> arguments) this this1 this2 Hone Hrest).
Qed.

Lemma encodeArg_returns encodeArgs argName argValue ac w this :
  encodeArgs !! argName = Some ac → encode ac argValue = Ok w →
  ∃ fragment this', encodeArg encodeArgs (argName, argValue) this = Ok (fragment, this').
Proof.
  intros Hac Hw. unfold encodeArg, get. rewrite Hac, M_bind_eq. unfold lift.
  rewrite Hw. eauto.
Qed.

Lemma mapM_encodeArg_returns encodeArgs arguments this :
  Forall (λ arg, ∃ ac w, encodeArgs !! arg.1 = Some ac ∧ encode ac arg.2 = Ok w) arguments →
  ∃ input this', mapM (encodeArg encodeArgs) arguments this = Ok (input, this').
Proof.
  intros Hall. revert this.
  induction Hall as [|[argName argValue] arguments (ac & w & Hac & Hw) _ IH]; intros this.
  - rewrite mapM_nil. eauto.
  - rewrite mapM_cons.
    destruct (encodeArg_returns encodeArgs argName argValue ac w this Hac Hw)
      as (fragment & this1 & ->).
    destruct (IH this1) as (rest & this2 & ->). eauto.
Qed.

Lemma supplied_entries params entries :
  Object_entries params = Ok entries →
  supplied params = filter (λ e, nullish e.2 = false) entries.
Proof. unfold supplied. by intros ->. Qed.

Lemma supplied_idemp params : supplied (VObject (supplied params)) = supplied params.
Proof.
  unfold supplied at 1. cbn [Object_entries]. unfold supplied.
  destruct (Object_entries params) as [entries|]; [|done].
  induction entries as [|e entries IH]; [done|].
  rewrite filter_cons. destruct (decide (nullish e.2 = false)) as [He|He]; [|done].
  by rewrite filter_cons, decide_True, IH.
Qed.

Lemma Object_entries_returns params :
  nullish params = false → ∃ entries, Object_entries params = Ok entries.
Proof. destruct params; cbn; eauto; done. Qed.

Lemma length_argFragments first argNames :
  length (argFragments first argNames) = length argNames.
Proof. apply length_imap. Qed.

Section Arguments.

Context (force : string → Codec).

Lemma encodeFunction_scalar field params n encoder encodeArgs this :
  args encoder = Some encodeArgs →
  encodeFunction force field params (VNumber n) encoder this =
  match Object_entries params with
  | Throw e => Throw e
  | Ok entries =>
      match mapM (encodeArg encodeArgs) (filter (λ e, nullish e.2 = false) entries) this with
      | Throw e => Throw e
      | Ok (input, this') =>
          Ok (if decide (length input = 0) then field
              else field +:+ "(" +:+ join ", " input +:+ ")", this')
      end
  end.
Proof.
  intros Hargs. rewrite encodeFunction_eq, Hargs, M_bind_eq. unfold lift.
  destruct (Object_entries params) as [entries|]; [|done].
  rewrite M_bind_eq.
  destruct (@mapM M _ _ _ _ _ _ this) as [[input this']|]; [|done].
  cbn. by destruct (decide (length input = 0)).
Qed.

(** C7. [encodeFunction] skips every argument whose value is [null] or
    [undefined]: it runs exactly as on the supplied arguments alone, so
    for such a key nothing is looked up, no variable is allocated and no
    fragment is emitted.  With a scalar sub-selection the output carries
    one [argName: $vN] fragment and one variable per supplied argument,
    and it is the bare field name when none is supplied. *)
Theorem encodeFunction_skips_nullish field params fieldRequest encoder encodeArgs this :
  args encoder = Some encodeArgs →
  nullish params = false →
  encodeFunction force field params fieldRequest encoder this
  = encodeFunction force field (VObject (supplied params)) fieldRequest encoder this
  ∧ (typeof fieldRequest = "number" →
     (∀ out this',
        encodeFunction force field params fieldRequest encoder this = Ok (out, this') →
        allocates ((λ arg, (encodeArgs, arg)) <$> supplied params) this this' ∧
        out = if decide (length (supplied params) = 0) then field
              else field +:+ "(" +:+
                   join ", " (argFragments (variableCounter this) (supplied params).*1)
                   +:+ ")")
     ∧ (supplied params = [] →
        encodeFunction force field params fieldRequest encoder this = Ok (field, this))
     ∧ (Forall (λ arg, ∃ ac w, encodeArgs !! arg.1 = Some ac ∧ encode ac arg.2 = Ok w)
          (supplied params) →
        ∃ out this',
          encodeFunction force field params fieldRequest encoder this = Ok (out, this'))).
Proof.
  intros Hargs Hparams.
  destruct (Object_entries_returns params Hparams) as [entries Hentries].
  pose proof (supplied_entries params entries Hentries) as Hsup.
  split.
  - rewrite !encodeFunction_eq, Hargs, !M_bind_eq. unfold lift.
    rewrite Hentries. cbn [Object_entries].
    rewrite <- Hsup. fold (supplied (VObject (supplied params))).
    change (filter _ (supplied params)) with (supplied (VObject (supplied params))).
    by rewrite supplied_idemp.
  - intros Hnumber. destruct fieldRequest; try done.
    rewrite (encodeFunction_scalar _ _ _ _ encodeArgs) by done.
    rewrite Hentries, <- Hsup. split; [|split].
    + intros out this'.
      destruct (@mapM M _ _ _ _ _ _ this) as [[input st]|] eqn:Hmap; [|done].
      intros [= <- <-]. apply mapM_encodeArg_ok in Hmap as [-> Halloc].
      split; [done|].
      rewrite length_argFragments, length_fmap.
      by destruct (decide (length (supplied params) = 0)).
    + intros ->. by rewrite mapM_nil.
    + intros Hall.
      destruct (mapM_encodeArg_returns encodeArgs (supplied params) this Hall)
        as (input & st & ->).
      eauto.
Qed.

End Arguments.

Lemma encodeFunction_skips_nullish_witness :
  encodeFunction Example.force "getUser"
    (VObject [("id", VNull); ("name", VUndefined)]) Example.one
    Example.getUser GraphQLRequest_new
  = Ok ("getUser", GraphQLRequest_new).
Proof.
  eapply (encodeFunction_skips_nullish Example.force "getUser"
           (VObject [("id", VNull); ("name", VUndefined)]) Example.one).
  - reflexivity.
  - reflexivity.
  - reflexivity.
  - reflexivity.
Defined.

(** * The nested argument scenario *)

Lemma get_own {A} (o : gmap string A) key a : o !! key = Some a → get o key = Own a.
Proof. unfold get. by intros ->. Qed.

Section Scenario.
Context (force : string → Codec).

(** C1. The selection [{ getUser: [{ id: 42 }, { name: 1, email: 1 }] }],
    encoded as a query against a codec whose [getUser] descriptor has an
    argument [id] of wire type [Int] (the integer scalar sends 42 as 42)
    and a sub-codec with the fields [name] and [email], gives exactly the
    text [query($v1: Int) { getUser(id: $v1) { name email } }] and the
    variable mapping [{ v1: 42 }]. *)
Theorem encodeRequest_getUser codec_ getUser encodeArgs id sub name email :
  codec_ !! "getUser" = Some getUser →
  args getUser = Some encodeArgs →
  encodeArgs !! "id" = Some id →
  type id = "Int" →
  encode id (VNumber (int 42)) = Ok (VNumber (int 42)) →
  codec getUser = Some sub →
  force sub !! "name" = Some name →
  force sub !! "email" = Some email →
  encodeRequest force "query" Example.getUser42 codec_ =
  Ok {| query := "query($v1: Int) { getUser(id: $v1) { name email } }";
        variablesJson := Some [("v1", VNumber (int 42))] |}.
Proof.
  intros HgetUser Hargs Hid Htype Hencode Hsub Hname Hemail.
  assert (∀ st, encodeObject force
                  (VObject [("name", Example.one); ("email", Example.one)])
                  (force sub) st = Ok ("{ name email }", st)) as Hnested.
  { intros st. rewrite encodeObject_object, mapM_cons. cbv beta iota.
    unfold encodeEntry at 1. rewrite (get_own _ _ _ Hname).
    unfold Example.one at 1. rewrite encodeField_number.
    rewrite mapM_cons. cbv beta iota.
    unfold encodeEntry at 1. rewrite (get_own _ _ _ Hemail).
    unfold Example.one at 1. rewrite encodeField_number, mapM_nil.
    reflexivity. }
  assert (encodeFunction force "getUser" (VObject [("id", VNumber (int 42))])
            (VObject [("name", Example.one); ("email", Example.one)]) getUser
            GraphQLRequest_new
          = Ok ("getUser(id: $v1) { name email }",
                {| variables := [{| var_type := "Int"; var_name := "v1";
                                    var_value := VNumber (int 42) |}];
                   variableCounter := 2 |})) as Hfunction.
  { rewrite encodeFunction_eq, Hargs, M_bind_eq. cbn [lift Object_entries].
    rewrite M_bind_eq.
    rewrite filter_cons, decide_True by done. rewrite filter_nil, mapM_cons.
    unfold encodeArg at 1. rewrite (get_own _ _ _ Hid), M_bind_eq.
    cbn [lift]. rewrite Hencode, Htype. 
    cbv [lift newVariableName push mbind M_bind mret M_ret variables variableCounter
           GraphQLRequest_new].
    rewrite mapM_nil. cbn [typeof].
    rewrite decide_False, decide_True by done.
    rewrite Hsub. change (?m ≫= ?f) with (M_bind _ _ f m). unfold M_bind.
    rewrite Hnested. vm_compute. reflexivity. }
  unfold encodeRequest, Example.getUser42.
  rewrite encodeObject_object, mapM_cons. cbv beta iota.
  unfold encodeEntry at 1. rewrite (get_own _ _ _ HgetUser), encodeField_eq.
  cbn [typeof Array_isArray index item].
  rewrite decide_False by done.
  change (item _ 0) with (VObject [("id", VNumber (int 42))]).
  change (item _ 1) with (VObject [("name", Example.one); ("email", Example.one)]).
  rewrite Hfunction, mapM_nil. vm_compute. reflexivity.
Qed.

End Scenario.

Lemma encodeRequest_getUser_witness :
  encodeRequest Example.force "query" Example.getUser42 Example.Query =
  Ok {| query := "query($v1: Int) { getUser(id: $v1) { name email } }";
        variablesJson := Some [("v1", VNumber (int 42))] |}.
Proof.
  apply (encodeRequest_getUser Example.force Example.Query Example.getUser
           {[ "id" := Example.Int_arg; "name" := Example.String_arg ]}
           Example.Int_arg "User" Example.scalarField Example.scalarField);
    vm_compute; reflexivity.
Defined.

(** ** The invariant of one encoding run *)

Lemma mapM_traces {A B} (f : A → M B) (recorded : A → list Argument)
    (plain : A → list (string * JsValue)) l :
  Forall (λ x, ∀ this y this', f x this = Ok (y, this') →
               traces (recorded x) (plain x) this this') l →
  ∀ this ys this', mapM f l this = Ok (ys, this') →
                   traces (flat_map recorded l) (flat_map plain l) this this'.
Proof.
  induction 1 as [|x l Hx _ IH]; intros this ys this'.
  - rewrite mapM_nil. intros [= <- <-]. apply traces_refl.
  - rewrite mapM_cons. destruct (f x this) as [[y this1]|] eqn:Hfx; [|done].
    destruct (mapM f l this1) as [[k this2]|] eqn:Hl; [|done].
    intros [= <- <-]. cbn [flat_map]. eapply traces_trans; eauto.
Qed.

Lemma mapM_indexed_traces {A B} (f : nat → A → M B) (recorded : nat → A → list Argument)
    (plain : A → list (string * JsValue)) l :
  Forall (λ x, ∀ i this y this', f i x this = Ok (y, this') →
               traces (recorded i x) (plain x) this this') l →
  ∀ i this ys this', mapM_indexed f i l this = Ok (ys, this') →
                     traces (flat_map_indexed recorded i l) (flat_map plain l) this this'.
Proof.
  induction 1 as [|x l Hx _ IH]; intros i this ys this'.
  - intros [= <- <-]. apply traces_refl.
  - cbn [mapM_indexed]. rewrite M_bind_eq.
    destruct (f i x this) as [[y this1]|] eqn:Hfx; [|done].
    rewrite M_bind_eq.
    destruct (mapM_indexed f (S i) l this1) as [[k this2]|] eqn:Hl; [|done].
    intros [= <- <-]. cbn [flat_map flat_map_indexed]. eapply traces_trans; eauto.
Qed.

Lemma fieldArguments_array items :
  fieldArguments (VArray items)
  = supplied (item items 0) ++ suppliedArguments (item items 1).
Proof. by destruct items as [|? [|? ?]]. Qed.

Section Invariant.

Context (force : string → Codec).

Lemma recordedField_array items codec_ :
  recordedField force (VArray items) codec_
  = match args codec_ with
    | Some encodeArgs => (λ arg, (encodeArgs, arg)) <$> supplied (item items 0)
    | None => []
    end ++
    match codec codec_ with
    | Some sub => recordedArguments force (item items 1) (force sub)
    | None => []
    end.
Proof.
  unfold recordedField. cbn [recordedField_].
  destruct items as [|? [|? ?]]; destruct (codec codec_); reflexivity.
Qed.

Lemma encodeFunction_allocates field params fieldRequest encoder this s this' :
  object_allocates force fieldRequest →
  encodeFunction force field params fieldRequest encoder this = Ok (s, this') →
  traces
    (match args encoder with
     | Some encodeArgs => (λ arg, (encodeArgs, arg)) <$> supplied params
     | None => []
     end ++
     match codec encoder with
     | Some sub => recordedArguments force fieldRequest (force sub)
     | None => []
     end)
    (supplied params ++ suppliedArguments fieldRequest) this this'.
Proof.
  intros Hobject. rewrite encodeFunction_eq.
  destruct (args encoder) as [encodeArgs|]; [|done].
  rewrite M_bind_eq. unfold lift, supplied.
  destruct (Object_entries params) as [entries|]; [|done].
  rewrite M_bind_eq.
  destruct (@mapM M _ _ _ _ _ _ this) as [[input this1]|] eqn:Hinput; [|done].
  apply mapM_encodeArg_ok in Hinput as [_ Hinput].
  assert (traces ((λ arg, (encodeArgs, arg)) <$> filter (λ e, nullish e.2 = false) entries)
            (filter (λ e, nullish e.2 = false) entries) this this1) as Hargs.
  { split; [done|]. rewrite <- list_fmap_compose. apply list_fmap_id. }
  destruct (decide (typeof fieldRequest = "number")) as [Hnumber|_].
  - destruct fieldRequest; try done.
    assert (traces [] [] this1 this1) as Hnone by apply traces_refl.
    destruct (decide (length input = 0)); intros [= <- <-];
      (eapply traces_trans; [exact Hargs|]); by destruct (codec encoder).
  - destruct (decide (typeof fieldRequest = "object")); [|done].
    destruct (codec encoder) as [sub|]; [|done].
    rewrite M_bind_eq.
    destruct (encodeObject force fieldRequest (force sub) this1)
      as [[subRequest this2]|] eqn:Hsub; [|done].
    apply Hobject in Hsub.
    destruct (decide (length input = 0)); intros [= <- <-];
      by eapply traces_trans.
Qed.

Lemma encodeEntry_allocates codec_ fieldName fieldValue this s this' :
  field_allocates force fieldValue →
  encodeEntry (encodeField force) codec_ fieldName fieldValue this = Ok (s, this') →
  traces (recordedEntry (recordedField force) codec_ fieldName fieldValue)
    (fieldArguments fieldValue) this this'.
Proof.
  intros Hfield. unfold encodeEntry, recordedEntry.
  destruct (get codec_ fieldName); [apply Hfield..|].
  rewrite M_bind_eq. unfold lift. by destruct (interpolate codec_).
Qed.

Lemma encode_allocates value : object_allocates force value ∧ field_allocates force value.
Proof.
  induction value as [| | | | |items IH|props IH] using JsValue_nested_ind;
    try (split; [by intros ? ? ? ?|]; intros field d this out this';
         rewrite encodeField_eq; cbn; by destruct (codec d)).
  - split; [by intros ? ? ? ?|]. intros field d this out this'.
    rewrite encodeField_number. intros [= <- <-]. apply traces_refl.
  - split.
    + intros codec_ this out this'. cbn [encodeObject]. rewrite M_bind_eq.
      destruct (mapM_indexed _ 0 items this) as [[request this1]|] eqn:Hmap; [|done].
      intros [= <- <-].
      eapply (mapM_indexed_traces _
                (λ i v, recordedEntry (recordedField force) codec_ (pretty i) v)
                fieldArguments) in Hmap; [exact Hmap|].
      eapply Forall_impl; [exact IH|]. intros x [_ Hx] i st y st'.
      by apply encodeEntry_allocates.
    + intros field d this out this'.
      rewrite fieldArguments_array, recordedField_array, encodeField_eq.
      cbn [typeof Array_isArray index]. rewrite decide_False by done.
      apply encodeFunction_allocates.
      unfold item. destruct (items !! 1) as [x|] eqn:Hx; cbn.
      * by eapply (Forall_lookup_1 _ _ _ _ IH Hx).
      * by intros ? ? ? ?.
  - assert (object_allocates force (VObject props)) as Hobject.
    { intros codec_ this out this'. rewrite encodeObject_object.
      destruct (@mapM M _ _ _ _ _ _ this) as [[request this1]|] eqn:Hmap; [|done].
      intros [= <- <-].
      eapply (mapM_traces _
                (λ p, recordedEntry (recordedField force) codec_ p.1 p.2)
                (λ p, fieldArguments p.2)) in Hmap; [exact Hmap|].
      eapply Forall_impl; [exact IH|]. intros [k v] [_ Hv] st y st'.
      by apply encodeEntry_allocates. }
    split; [done|]. intros field d this out this'. rewrite encodeField_eq.
    cbn [typeof Array_isArray]. rewrite decide_False by done.
    unfold recordedField. cbn [recordedField_].
    destruct (codec d) as [sub|]; [|done]. rewrite decide_True, M_bind_eq by done.
    destruct (encodeObject force (VObject props) (force sub) this)
      as [[nested this1]|] eqn:Hnested; [|done].
    intros [= <- <-]. by eapply Hobject.
Qed.

End Invariant.

(** ** The variable mapping of an encoded request *)

Lemma varName_inj : Inj (=) (=) (λ i : nat, "v" +:+ pretty i).
Proof. intros i j [= H]. by apply (inj pretty). Qed.

Lemma NoDup_varNames first count : NoDup (varNames first count).
Proof. apply (NoDup_fmap_2 _), NoDup_seq. Qed.

Lemma set_prop_fresh target key v :
  key ∉ target.*1 → set_prop target key v = target ++ [(key, v)].
Proof.
  induction target as [|[k w] target IH]; [done|].
  cbn [fmap list_fmap fst]. rewrite not_elem_of_cons. intros [Hne Hnotin].
  cbn [set_prop]. rewrite decide_False by done. by rewrite IH.
Qed.

Lemma assign_variables acc (vars : list RequestVariable) :
  NoDup (acc.*1 ++ (var_name <$> vars)) →
  foldl Object_assign acc ((λ e, [(var_name e, var_value e)]) <$> vars)
  = acc ++ ((λ e, (var_name e, var_value e)) <$> vars).
Proof.
  revert acc. induction vars as [|e vars IH]; intros acc Hnodup.
  - by rewrite app_nil_r.
  - cbn [fmap list_fmap foldl]. unfold Object_assign at 2. cbn [foldl fst snd].
    rewrite set_prop_fresh.
    + rewrite IH; [by rewrite <- app_assoc|].
      by rewrite fmap_app, <- app_assoc.
    + apply NoDup_app in Hnodup as (_ & Hdisjoint & _).
      intros Hin. apply (Hdisjoint _ Hin). cbn. apply elem_of_cons. by left.
Qed.

Lemma several_variables_per_argumented_field :
  ¬ one_variable_per_argumented_field Example.force.
Proof.
  intros H.
  specialize (H "query" Example.getUserByIdAndName Example.Query
                {| query := "query($v1: Int, $v2: String) { getUser(id: $v1, name: $v2) { email } }";
                   variablesJson := Some [("v1", VNumber (int 42)); ("v2", VString "Ann")] |}).
  vm_compute in H. discriminate H. reflexivity.
Qed.

(** C2, amended. A variable is allocated for each supplied (non-null)
    argument, not for each argumented field.  When a selection supplies
    [k] arguments in all, the variable mapping of the encoded request has
    exactly the [k] distinct keys [v1 .. vk], in the left-to-right,
    depth-first order of the arguments: the i-th key is bound to the
    i-th supplied argument as encoded by the entry that the [args] of its
    field's descriptor has for it; for [k = 0] the mapping is
    [undefined]. *)
Theorem encodeRequest_variables force operationType request codec_ r :
  encodeRequest force operationType request codec_ = Ok r →
  (mapping (variablesJson r)).*1 = varNames 1 (length (suppliedArguments request))
  ∧ NoDup (mapping (variablesJson r)).*1
  ∧ length (mapping (variablesJson r)) = length (suppliedArguments request)
  ∧ (variablesJson r = None ↔ suppliedArguments request = [])
  ∧ (recordedArguments force request codec_).*2 = suppliedArguments request
  ∧ Forall2 binds (recordedArguments force request codec_) (mapping (variablesJson r)).
Proof.
  unfold encodeRequest.
  destruct (encodeObject force request codec_ GraphQLRequest_new)
    as [[encodedObject encoding]|] eqn:Hrun; [|done].
  intros [= <-]. cbn [variablesJson].
  destruct (encode_allocates force request) as [Hobject _].
  apply Hobject in Hrun as [(vars & Hvars & _ & Hnames & Hencodes) Hplain].
  cbn [GraphQLRequest_new variables variableCounter app] in Hvars, Hnames.
  pose proof (Forall2_length _ _ _ Hencodes) as Hlength.
  rewrite <- Hplain, length_fmap.
  assert (mapping (variablesJsonObject encoding)
          = (λ e, (var_name e, var_value e)) <$> vars) as Hmapping.
  { unfold variablesJsonObject. rewrite Hvars.
    destruct (decide (length vars = 0)) as [Hnil|_].
    - by apply nil_length_inv in Hnil as ->.
    - cbn [mapping default from_option id].
      rewrite (assign_variables [] vars); [done|].
      cbn [app fmap list_fmap]. rewrite Hnames. apply NoDup_varNames. }
  assert ((mapping (variablesJsonObject encoding)).*1 = var_name <$> vars) as Hkeys.
  { rewrite Hmapping, <- list_fmap_compose. done. }
  rewrite Hkeys, Hnames, Hlength, Hmapping, length_fmap. repeat split.
  - apply NoDup_varNames.
  - unfold variablesJsonObject. rewrite Hvars.
    destruct (decide (length vars = 0)); [|done].
    intros _. apply nil_length_inv. rewrite length_fmap. lia.
  - unfold variablesJsonObject. rewrite Hvars. intros Hnil.
    apply fmap_nil_inv in Hnil. rewrite Hnil in Hlength. cbn in Hlength.
    by rewrite decide_True.
  - eapply Forall2_fmap_r, Forall2_impl; [exact Hencodes|].
    intros a var (ac & Hac & _ & Hvalue). by exists ac.
Qed.

Lemma encodeRequest_variables_witness :
  (mapping (Some [("v1", VNumber (int 42)); ("v2", VNumber (int 3))])).*1
  = varNames 1 (length (suppliedArguments Example.getUserWithFriends))
  ∧ Forall2 binds
      (recordedArguments Example.force Example.getUserWithFriends Example.Query)
      (mapping (Some [("v1", VNumber (int 42)); ("v2", VNumber (int 3))])).
Proof.
  pose proof (encodeRequest_variables Example.force "query" Example.getUserWithFriends
                Example.Query
                {| query := "query($v1: Int, $v2: Int) { getUser(id: $v1) { name friends(first: $v2) { email } } version }";
                   variablesJson := Some [("v1", VNumber (int 42)); ("v2", VNumber (int 3))] |})
    as Hrun.
  destruct Hrun as (Hkeys & _ & _ & _ & _ & Hbinds); [vm_compute; reflexivity|].
  exact (conj Hkeys Hbinds).
Defined.

(** * Determinism *)




(** A store in which an earlier instance has its counter at 4: the next
    request still numbers its variables from 1. *)
Example encodeRequest_after_another :
  fst <$> Store.encodeRequest Example.force "query" Example.getUser42 Example.Query
            [ {| variables := []; variableCounter := 4 |} ]
  = Ok {| query := "query($v1: Int) { getUser(id: $v1) { name email } }";
          variablesJson := Some [("v1", VNumber (int 42))] |}.
Proof. reflexivity. Qed.

(** * The value codecs: lists, nullable values, objects *)

Lemma mapM_result_Ok {A B} (f : A → result B) l k :
  mapM f l = Ok k ↔ Forall2 (λ x y, f x = Ok y) l k.
Proof.
  revert k. induction l as [|x l IH]; intros k.
  - split; [intros [= <-]; constructor|by inversion 1].
  - rewrite mapM_result_cons. split.
    + destruct (f x) as [y|] eqn:Hx; [|done].
      destruct (mapM f l) as [k'|]; [|done].
      intros [= <-]. constructor; [done|]. by apply IH.
    + inversion 1 as [|? y ? k' Hx Hrest]; subst.
      rewrite Hx. apply IH in Hrest. by rewrite Hrest.
Qed.

(** X1. [decodeList] succeeds exactly on arrays all of whose elements
    decode; the result then has the decoded elements in the same order
    (and so the same length).  Anything that is not an array is rejected. *)
Theorem decodeList_elementwise value decode r :
  decodeList value decode = Ok r ↔
  ∃ items, value = VArray items ∧ Forall2 (λ x y, decode x = Ok y) items r.
Proof.
  split.
  - destruct value; try done. cbn [decodeList]. rewrite mapM_result_Ok. eauto.
  - intros (items & -> & Hall). cbn [decodeList]. by apply mapM_result_Ok.
Qed.

(** X2. The first element that fails to decode decides the error of
    [decodeList]: when the elements before it decode, the list decoding
    throws exactly what the element decoder threw on it, and elements
    after it are not looked at. *)
Theorem decodeList_first_error before item after decode decoded e :
  decodeList (VArray before) decode = Ok decoded →
  decode item = Throw e →
  decodeList (VArray (before ++ item :: after)) decode = Throw e.
Proof.
  cbn [decodeList]. intros Hbefore Hitem.
  by apply (mapM_result_first_throw decode before item after decoded e).
Qed.

Lemma decodeList_first_error_witness :
  decodeList (VArray ([VObject []] ++ VString "oops" :: [VNull]))
    (λ item, VObject <$> decodeObject item Example.User)
  = Throw (ExpectedObject (VString "oops")).
Proof.
  apply (decodeList_first_error [VObject []] (VString "oops") [VNull]
           (λ item, VObject <$> decodeObject item Example.User) [VObject []]);
    reflexivity.
Defined.

(** X3. A list written by [encodeList] is read back by [decodeList]:
    when the element decoder undoes the element encoder on the elements of
    the list, decoding the encoded list returns the original elements. *)
Theorem decodeList_encodeList items encode decode wire :
  (∀ x w, x ∈ items → encode x = Ok w → decode w = Ok x) →
  encodeList (VArray items) encode = Ok wire →
  decodeList (VArray wire) decode = Ok items.
Proof.
  intros Hinverse. cbn [encodeList decodeList]. rewrite !mapM_result_Ok.
  intros Hwire. induction Hwire as [|x w items wire Hx _ IH]; [constructor|].
  constructor.
  - apply (Hinverse x w); [apply elem_of_cons; by left|done].
  - apply IH. intros y v Hy. apply Hinverse. apply elem_of_cons. by right.
Qed.

Lemma decodeList_encodeList_witness :
  decodeList (VArray [VNumber (int 1); VString "two"]) (λ v, Ok v)
  = Ok [VNumber (int 1); VString "two"].
Proof.
  apply (decodeList_encodeList [VNumber (int 1); VString "two"] (λ v, Ok v) (λ v, Ok v)).
  - by intros x w _ [= <-].
  - reflexivity.
Defined.



Lemma set_prop_new target key v :
  key ∉ target.*1 → set_prop target key v = target ++ [(key, v)].
Proof.
  induction target as [|[k w] target IH]; [done|].
  cbn [fmap list_fmap fst]. rewrite not_elem_of_cons. intros [Hne Hnotin].
  cbn [set_prop]. rewrite decide_False by done. by rewrite IH.
Qed.

Lemma assign_singletons acc (l : list (string * JsValue)) :
  NoDup (acc.*1 ++ l.*1) →
  foldl Object_assign acc ((λ q, [q]) <$> l) = acc ++ l.
Proof.
  revert acc. induction l as [|[k v] l IH]; intros acc Hnodup.
  - by rewrite app_nil_r.
  - cbn [fmap list_fmap foldl]. unfold Object_assign at 2. cbn [foldl fst snd].
    rewrite set_prop_new.
    + rewrite IH; [by rewrite <- app_assoc|].
      by rewrite fmap_app, <- app_assoc.
    + apply NoDup_app in Hnodup as (_ & Hdisjoint & _).
      intros Hin. apply (Hdisjoint _ Hin). cbn. apply elem_of_cons. by left.
Qed.

Lemma Forall2_same_keys {A B} (R : string * A → string * B → Prop) l k :
  (∀ p q, R p q → q.1 = p.1) → Forall2 R l k → k.*1 = l.*1.
Proof.
  intros Hkey. induction 1 as [|p q l k Hpq _ IH]; [done|].
  cbn [fmap list_fmap]. by rewrite (Hkey p q Hpq), IH.
Qed.

Lemma mapM_decodeEntry decoder props parts :
  mapM (decodeEntry decoder) props = Ok parts ↔
  ∃ r, parts = (λ q, [q]) <$> r ∧ Forall2 (decodes decoder) props r.
Proof.
  rewrite mapM_result_Ok. split.
  - induction 1 as [|[k v] part props parts Hentry _ (r & -> & Hr)].
    + exists []. split; [done|constructor].
    + unfold decodeEntry, get in Hentry.
      destruct (decoder !! k) as [field|] eqn:Hfield;
        [|by destruct (bool_decide _), (interpolate decoder)].
      destruct (decode field v) as [decoded|] eqn:Hdecoded; [|done].
      injection Hentry as <-. exists ((k, decoded) :: r). split; [done|].
      constructor; [|done]. split; [done|]. by exists field.
  - intros (r & -> & Hr). induction Hr as [|[k v] [k' w] props r Hone _ IH]; [constructor|].
    cbn [fmap list_fmap]. constructor; [|done].
    destruct Hone as [Hk (field & Hfield & Hdecoded)]. cbn in Hk, Hfield, Hdecoded.
    subst k'. unfold decodeEntry, get. rewrite Hfield. cbn. by rewrite Hdecoded.
Qed.

Lemma decodeObject_Forall2 props decoder r :
  NoDup props.*1 →
  decodeObject (VObject props) decoder = Ok r ↔ Forall2 (decodes decoder) props r.
Proof.
  intros Hnodup. rewrite decodeObject_object. split.
  - destruct (mapM (decodeEntry decoder) props) as [parts|] eqn:Hparts; [|done].
    apply mapM_decodeEntry in Hparts as (r' & -> & Hr'). intros [= <-].
    assert (r'.*1 = props.*1) as Hkeys
      by (eapply Forall2_same_keys; [|exact Hr']; by intros ? ? [? _]).
    rewrite (assign_singletons [] r'); [done|].
    cbn [fmap list_fmap app]. by rewrite Hkeys.
  - intros Hr.
    assert (mapM (decodeEntry decoder) props = Ok ((λ q, [q]) <$> r)) as ->
      by (apply mapM_decodeEntry; eauto).
    assert (r.*1 = props.*1) as Hkeys
      by (eapply Forall2_same_keys; [|exact Hr]; by intros ? ? [? _]).
    rewrite (assign_singletons [] r); [done|].
    cbn [fmap list_fmap app]. by rewrite Hkeys.
Qed.

(** X5. [decodeObject] on a response object succeeds exactly when every
    key of the response is an own field of the codec whose [decode]
    accepts the value; the result then has the same keys in the same
    order, each bound to its decoded value.  (Keys are distinct, as in
    every object; the key [__proto__], which [Object.assign] does not
    store, is left aside.) *)
Theorem decodeObject_fieldwise props decoder r :
  NoDup props.*1 → "__proto__" ∉ props.*1 →
  decodeObject (VObject props) decoder = Ok r ↔ Forall2 (decodes decoder) props r.
Proof. intros Hnodup _. by apply decodeObject_Forall2. Qed.

Lemma decodeObject_fieldwise_witness :
  decodeObject (VObject [("version", Example.one)]) Example.Query
  = Ok [("version", Example.one)]
  ↔ Forall2 (decodes Example.Query) [("version", Example.one)] [("version", Example.one)].
Proof.
  apply (decodeObject_fieldwise [("version", Example.one)] Example.Query
           [("version", Example.one)]).
  - apply NoDup_singleton.
  - cbn. intros Hin. apply list_elem_of_In in Hin. cbn in Hin. by destruct Hin.
Defined.

Lemma mapM_encodeEntry inherited (encoder : Encoder) props parts :
  Forall (λ p, is_Some (encoder !! p.1)) props →
  mapM (Input.encodeEntry inherited encoder) props = Ok parts →
  ∃ wire, parts = (λ q, [q]) <$> wire ∧
    Forall2 (λ p q, q.1 = p.1 ∧ ∃ e, encoder !! p.1 = Some e ∧ e p.2 = Ok q.2) props wire.
Proof.
  intros Hown. rewrite mapM_result_Ok. intros Hparts.
  induction Hparts as [|[k v] part props parts Hentry _ IH].
  - exists []. split; [done|constructor].
  - apply Forall_cons in Hown as [[e He] Hown]. destruct (IH Hown) as (wire & -> & Hwire).
    cbn in He. unfold Input.encodeEntry, get in Hentry. rewrite He in Hentry.
    destruct (e v) as [w|] eqn:Hw; [|done]. injection Hentry as <-.
    exists ((k, w) :: wire). split; [done|]. constructor; [|done].
    split; [done|]. by exists e.
Qed.

Lemma Input_encodeObject_object inherited props (encoder : Encoder) :
  Input.encodeObject inherited (VObject props) encoder =
  match mapM (Input.encodeEntry inherited encoder) props with
  | Ok parts => Ok (foldl Object_assign [] parts)
  | Throw e => Throw e
  end.
Proof. reflexivity. Qed.

(** X6. An input object written by the index module's [encodeObject] is
    read back by [decodeObject]: when every key of the object has an own
    encoder and an own codec field, and the field's [decode] undoes the
    encoder on the value, decoding the encoded object returns the
    original object, keys in the original order. *)
Theorem decodeObject_encodeObject inherited props (encoder : Encoder) decoder wire :
  NoDup props.*1 → "__proto__" ∉ props.*1 →
  (∀ k v, (k, v) ∈ props →
     ∃ e field, encoder !! k = Some e ∧ decoder !! k = Some field ∧
                ∀ w, e v = Ok w → decode field w = Ok v) →
  Input.encodeObject inherited (VObject props) encoder = Ok wire →
  decodeObject (VObject wire) decoder = Ok props.
Proof.
  intros Hnodup _ Hinverse. rewrite Input_encodeObject_object.
  destruct (mapM (Input.encodeEntry inherited encoder) props) as [parts|] eqn:Hparts; [|done].
  apply mapM_encodeEntry in Hparts as (wire' & -> & Hwire).
  - assert (wire'.*1 = props.*1) as Hkeys
      by (eapply Forall2_same_keys; [|exact Hwire]; by intros ? ? [? _]).
    rewrite (assign_singletons [] wire')
      by (cbn [fmap list_fmap app]; by rewrite Hkeys).
    intros [= <-]. apply decodeObject_Forall2; [by rewrite Hkeys|].
    clear Hkeys Hnodup. induction Hwire as [|[k v] [k' w] props wire' Hone _ IH];
      [constructor|].
    destruct Hone as [Hk (e & He & Hw)]. cbn in Hk, He, Hw. subst k'.
    destruct (Hinverse k v) as (e' & field & He' & Hfield & Hback);
      [apply elem_of_cons; by left|].
    rewrite He in He'. injection He' as <-.
    constructor.
    + split; [done|]. exists field. split; [done|]. by apply Hback.
    + apply IH. intros k2 v2 Hin. apply Hinverse. apply elem_of_cons. by right.
  - apply Forall_forall. intros [k v] Hin.
    destruct (Hinverse k v Hin) as (e & _ & He & _). by exists e.
Qed.

Lemma decodeObject_encodeObject_witness :
  decodeObject (VObject [("name", VString "Ann")]) Example.User
  = Ok [("name", VString "Ann")].
Proof.
  apply (decodeObject_encodeObject (λ _ _, Throw TypeError) [("name", VString "Ann")]
           {[ "name" := λ v, Ok v ]} Example.User [("name", VString "Ann")]).
  - apply NoDup_singleton.
  - cbn. intros Hin. apply list_elem_of_In in Hin. cbn in Hin. by destruct Hin.
  - intros k v Hin. apply list_elem_of_In in Hin. destruct Hin as [[= <- <-]|[]].
    exists (λ v, Ok v), Example.scalarField. repeat split.
    by intros w [= <-].
  - reflexivity.
Defined.

(** * The encoder: instance invariant, request header, edge cases *)

Lemma allocates_consistent arguments this this' :
  consistent this → allocates arguments this this' →
  consistent this'
  ∧ variables this `prefix_of` variables this'
  ∧ NoDup (var_name <$> variables this').
Proof.
  intros [Hnames Hcounter] (vars & Hvars & Hcounter' & Hnew & _).
  assert (var_name <$> variables this'
          = varNames 1 (length (variables this'))) as Hnames'.
  { rewrite Hvars, fmap_app, length_app, varNames_app, Hnames, Hnew, Hcounter. done. }
  repeat split.
  - done.
  - rewrite Hcounter', Hcounter, Hvars, length_app. done.
  - by exists vars.
  - rewrite Hnames'. apply NoDup_varNames.
Qed.

(** X7. The invariant of a [GraphQLRequest]: if the variables recorded so
    far are named [v1 .. vn] and the counter is [n + 1] (as in a new
    instance), then after a successful [encodeObject] on that instance
    this still holds, the earlier variables are kept unchanged at the
    front of the list, and all names in the list are distinct. *)
Theorem encodeObject_consistent force obj codec_ this out this' :
  consistent this →
  encodeObject force obj codec_ this = Ok (out, this') →
  consistent this'
  ∧ variables this `prefix_of` variables this'
  ∧ NoDup (var_name <$> variables this').
Proof.
  intros Hthis Hrun. destruct (encode_allocates force obj) as [Hobject _].
  eapply allocates_consistent; [done|]. by eapply (proj1 (Hobject _ _ _ _ Hrun)).
Qed.

Lemma encodeObject_consistent_witness :
  consistent {| variables := [{| var_type := "Int"; var_name := "v1";
                                 var_value := VNumber (int 42) |}];
                variableCounter := 2 |}.
Proof.
  apply (encodeObject_consistent Example.force Example.getUser42 Example.Query
           GraphQLRequest_new "{ getUser(id: $v1) { name email } }").
  - split; reflexivity.
  - vm_compute. reflexivity.
Defined.

(** X8. The header of an encoded request declares exactly the variables
    of its mapping: the query text is the operation kind, then, when
    variables were recorded, the parenthesised list of [$name: type] for
    the recorded variables in order, then a space and the encoded
    selection; the mapping binds the same names in the same order, and is
    [undefined] exactly when the header has no declarations. *)
Theorem encodeRequest_header force operationType request codec_ r :
  encodeRequest force operationType request codec_ = Ok r →
  ∃ body vars,
    encodeObject force request codec_ GraphQLRequest_new
    = Ok (body, {| variables := vars; variableCounter := S (length vars) |})
    ∧ query r = operationType +:+
                (if decide (vars = []) then ""
                 else "(" +:+ join ", " (declaration <$> vars) +:+ ")")
                +:+ " " +:+ body
    ∧ mapping (variablesJson r) = (λ e, (var_name e, var_value e)) <$> vars
    ∧ (variablesJson r = None ↔ vars = []).
Proof.
  unfold encodeRequest.
  destruct (encodeObject force request codec_ GraphQLRequest_new)
    as [[body [vars counter]]|] eqn:Hrun; [|done].
  intros [= <-]. exists body, vars.
  destruct (encode_allocates force request) as [Hobject _].
  apply Hobject in Hrun as [(vars' & Hvars & Hcounter & Hnames & _) _].
  cbn [variables variableCounter GraphQLRequest_new app] in Hvars, Hcounter, Hnames.
  subst vars' counter. cbn [query variablesJson].
  unfold variablesSupplyList, variablesJsonObject. cbn [variables].
  destruct vars as [|e vars]; [by repeat split|].
  rewrite !decide_False by done. repeat split; [|done..].
  cbn [mapping default from_option id].
  rewrite (assign_variables [] (e :: vars)); [done|].
  cbn [app fmap list_fmap] in Hnames |- *. rewrite Hnames. apply NoDup_varNames.
Qed.

Lemma encodeRequest_header_witness :
  ∃ body vars,
    encodeObject Example.force Example.getUserByIdAndName Example.Query GraphQLRequest_new
    = Ok (body, {| variables := vars; variableCounter := S (length vars) |})
    ∧ "query($v1: Int, $v2: String) { getUser(id: $v1, name: $v2) { email } }"
      = "query" +:+
        (if decide (vars = []) then ""
         else "(" +:+ join ", " (declaration <$> vars) +:+ ")")
        +:+ " " +:+ body
    ∧ mapping (Some [("v1", VNumber (int 42)); ("v2", VString "Ann")])
      = (λ e, (var_name e, var_value e)) <$> vars
    ∧ (Some [("v1", VNumber (int 42)); ("v2", VString "Ann")] = None ↔ vars = []).
Proof.
  apply (encodeRequest_header Example.force "query" Example.getUserByIdAndName Example.Query
           {| query := "query($v1: Int, $v2: String) { getUser(id: $v1, name: $v2) { email } }";
              variablesJson := Some [("v1", VNumber (int 42)); ("v2", VString "Ann")] |}).
  vm_compute. reflexivity.
Defined.

Lemma mapM_leaves force codec_ props this :
  Forall (λ p, typeof p.2 = "number" ∧ get codec_ p.1 ≠ Undefined) props →
  mapM (λ '(fieldName, fieldValue),
          encodeEntry (encodeField force) codec_ fieldName fieldValue) props this
  = Ok (props.*1, this).
Proof.
  induction 1 as [|[k v] props [Hnumber Hget] _ IH]; [done|].
  rewrite mapM_cons. cbv beta iota. unfold encodeEntry at 1.
  destruct v; try done. cbn in Hget.
  destruct (get codec_ k); [| |done]; by rewrite encodeField_number, IH.
Qed.

(** X9. A selection made of numeric leaves only, each naming a member the
    codec lookup finds, encodes to the field names in the selection's own
    order, separated by single spaces inside [{ ... }]; no variable is
    recorded and the counter does not move. *)
Theorem encodeObject_leaves force props codec_ this :
  Forall (λ p, typeof p.2 = "number" ∧ get codec_ p.1 ≠ Undefined) props →
  encodeObject force (VObject props) codec_ this
  = Ok ("{ " +:+ join " " props.*1 +:+ " }", this).
Proof.
  intros Hleaves. rewrite encodeObject_object. by rewrite mapM_leaves.
Qed.

Lemma encodeObject_leaves_witness :
  encodeObject Example.force
    (VObject [("version", Example.one); ("getUser", VNumber NaN)])
    Example.Query GraphQLRequest_new
  = Ok ("{ version getUser }", GraphQLRequest_new).
Proof.
  apply (encodeObject_leaves Example.force
           [("version", Example.one); ("getUser", VNumber NaN)] Example.Query).
  repeat constructor; vm_compute; discriminate.
Defined.

(** X10. A tuple is not checked for its length.  With fewer than two
    elements it never encodes: the missing sub-selection is [undefined],
    which is neither a number nor an object. *)
Theorem encodeField_short_tuple force field items codec_ this :
  length items < 2 →
  ∃ e, encodeField force field (VArray items) codec_ this = Throw e.
Proof.
  intros Hshort. rewrite encodeField_eq. cbn [typeof Array_isArray index].
  rewrite decide_False by done.
  assert (item items 1 = VUndefined) as ->.
  { destruct items as [|? [|? ?]]; [done..|cbn in Hshort; lia]. }
  rewrite encodeFunction_eq. destruct (args codec_) as [encodeArgs|]; [|by eexists].
  rewrite M_bind_eq. unfold lift.
  destruct (Object_entries (item items 0)) as [entries|]; [|by eexists].
  rewrite M_bind_eq.
  destruct (@mapM M _ _ _ _ _ _ this) as [[input this1]|]; [|by eexists].
  cbn [typeof]. rewrite !decide_False by done. by eexists.
Qed.

Lemma encodeField_short_tuple_witness :
  ∃ e, encodeField Example.force "getUser"
         (VArray [VObject [("id", VNumber (int 42))]]) Example.getUser GraphQLRequest_new
       = Throw e.
Proof.
  apply (encodeField_short_tuple Example.force "getUser"
           [VObject [("id", VNumber (int 42))]] Example.getUser GraphQLRequest_new).
  cbn. lia.
Defined.

(** Elements of a tuple after the second are ignored: a longer
    array encodes exactly as the pair of its first two elements. *)
Lemma encodeField_long_tuple force field params fieldRequest rest codec_ this :
  encodeField force field (VArray (params :: fieldRequest :: rest)) codec_ this
  = encodeField force field (VArray [params; fieldRequest]) codec_ this.
Proof. by rewrite !encodeField_eq. Qed.

Lemma encodeArg_undefined encodeArgs argName argValue this :
  get encodeArgs argName = Undefined →
  encodeArg encodeArgs (argName, argValue) this = Throw (UnknownArgument argName).
Proof. unfold encodeArg. by intros ->. Qed.

(** X11. An argument that is supplied (neither [null] nor [undefined])
    and for which the descriptor's [args] has no encoder makes
    [encodeFunction] fail, whatever the sub-selection is; the arguments
    are encoded in order, so the error is the unknown-argument error
    naming it when the supplied arguments before it have encoders that
    accept their values. *)
Theorem encodeFunction_unknown_argument force field params fieldRequest encoder
    encodeArgs before argName argValue after this :
  args encoder = Some encodeArgs →
  supplied params = before ++ (argName, argValue) :: after →
  get encodeArgs argName = Undefined →
  (∃ e, encodeFunction force field params fieldRequest encoder this = Throw e)
  ∧ (Forall (λ arg, ∃ ac w, encodeArgs !! arg.1 = Some ac ∧ encode ac arg.2 = Ok w) before →
     encodeFunction force field params fieldRequest encoder this
     = Throw (UnknownArgument argName)).
Proof.
  intros Hargs Hsupplied Hget. rewrite encodeFunction_eq, Hargs, M_bind_eq.
  unfold lift, supplied in *.
  destruct (Object_entries params) as [entries|]; [|by destruct before].
  rewrite M_bind_eq, Hsupplied. split.
  - destruct (mapM_throws (encodeArg encodeArgs) (before ++ (argName, argValue) :: after)
                (argName, argValue)) with (this := this) as [e ->]; [| |by eexists].
    + apply elem_of_app. right. apply elem_of_cons. by left.
    + intros st. rewrite encodeArg_undefined by done. by eexists.
  - intros Hbefore.
    destruct (mapM_encodeArg_returns encodeArgs before this Hbefore)
      as (input & this1 & Hinput).
    by rewrite (mapM_first_throw _ before (argName, argValue) after input this this1
                  (UnknownArgument argName) Hinput (encodeArg_undefined _ _ _ _ Hget)).
Qed.

Lemma encodeFunction_unknown_argument_witness :
  encodeFunction Example.force "getUser"
    (VObject [("id", VNumber (int 42)); ("age", Example.one)]) Example.one
    Example.getUser GraphQLRequest_new
  = Throw (UnknownArgument "age").
Proof.
  apply (encodeFunction_unknown_argument Example.force "getUser"
           (VObject [("id", VNumber (int 42)); ("age", Example.one)]) Example.one
           Example.getUser {[ "id" := Example.Int_arg; "name" := Example.String_arg ]}
           [("id", VNumber (int 42))] "age" Example.one [] GraphQLRequest_new).
  - reflexivity.
  - reflexivity.
  - vm_compute. reflexivity.
  - repeat constructor. exists Example.Int_arg, (VNumber (int 42)). by vm_compute.
Defined.

(** * Which selections encode *)

Lemma mapM_succeeds {A B} (f : A → M B) (g : A → bool) l :
  Forall (λ x, ∀ this, succeeds (f x this) = g x) l →
  ∀ this, succeeds (mapM f l this) = forallb g l.
Proof.
  induction 1 as [|x l Hx _ IH]; intros this; [done|].
  rewrite mapM_cons. cbn [forallb]. rewrite <- (Hx this).
  destruct (f x this) as [[y this1]|]; [|done].
  cbn [succeeds andb]. rewrite <- (IH this1).
  by destruct (mapM f l this1) as [[k this2]|].
Qed.

Lemma mapM_indexed_succeeds {A B} (f : nat → A → M B) (g : nat → A → bool) l :
  Forall (λ x, ∀ i this, succeeds (f i x this) = g i x) l →
  ∀ i this, succeeds (mapM_indexed f i l this) = forallb_indexed g i l.
Proof.
  induction 1 as [|x l Hx _ IH]; intros i this; [done|].
  cbn [mapM_indexed forallb_indexed]. rewrite M_bind_eq, <- (Hx i this).
  destruct (f i x this) as [[y this1]|]; [|done].
  cbn [succeeds andb]. rewrite M_bind_eq, <- (IH (S i) this1).
  by destruct (mapM_indexed f (S i) l this1) as [[k this2]|].
Qed.

Lemma encodeArg_succeeds encodeArgs arg this :
  succeeds (encodeArg encodeArgs arg this) =
  match encodeArgs !! arg.1 with
  | Some encodeArg =>
      match encode encodeArg arg.2 with Ok _ => true | Throw _ => false end
  | None => false
  end.
Proof.
  destruct arg as [argName argValue]. unfold encodeArg, get. cbn [fst snd].
  destruct (encodeArgs !! argName) as [ac|]; [|by destruct (bool_decide _)].
  rewrite M_bind_eq. unfold lift. by destruct (encode ac argValue).
Qed.

Section Validity_facts.

Context (force : string → Codec).

Lemma validSecond_eq items encoder :
  validSecond force (validObject force) items encoder =
  match item items 1 with
  | VNumber _ => true
  | fieldRequest =>
      bool_decide (typeof fieldRequest = "object") &&
      match codec encoder with
      | Some sub => validObject force fieldRequest (force sub)
      | None => false
      end
  end.
Proof. destruct items as [|? [|[] ?]]; reflexivity. Qed.

Lemma encodeFunction_succeeds field params fieldRequest encoder this :
  object_decided force fieldRequest →
  succeeds (encodeFunction force field params fieldRequest encoder this) =
  match args encoder with
  | Some encodeArgs =>
      argumentsEncode encodeArgs params &&
      match fieldRequest with
      | VNumber _ => true
      | _ =>
          bool_decide (typeof fieldRequest = "object") &&
          match codec encoder with
          | Some sub => validObject force fieldRequest (force sub)
          | None => false
          end
      end
  | None => false
  end.
Proof.
  intros Hobject. rewrite encodeFunction_eq.
  destruct (args encoder) as [encodeArgs|]; [|done].
  rewrite M_bind_eq. unfold lift, argumentsEncode, supplied.
  destruct (Object_entries params) as [entries|] eqn:Hentries;
    [|by destruct params].
  assert (nullish params = false) as -> by (by destruct params).
  cbn [negb andb]. rewrite M_bind_eq.
  rewrite <- (mapM_succeeds (encodeArg encodeArgs) _ _
                (proj2 (Forall_forall _ _)
                   (λ arg _ st, encodeArg_succeeds encodeArgs arg st)) this).
  destruct (@mapM M _ _ _ _ _ _ this) as [[input this1]|]; [|done].
  cbn [succeeds andb].
  destruct fieldRequest;
    try (cbn [typeof]; rewrite ?decide_False by done; reflexivity).
  - cbn [typeof]. rewrite decide_False, decide_True by done.
    rewrite bool_decide_eq_true_2 by done.
    destruct (codec encoder) as [sub|]; [|done]. rewrite M_bind_eq. reflexivity.
  - cbn [typeof]. rewrite decide_True by done. by destruct (decide (length input = 0)).
  - cbn [typeof]. rewrite decide_False, decide_True by done.
    rewrite bool_decide_eq_true_2 by done. cbn [andb].
    destruct (codec encoder) as [sub|]; [|done].
    rewrite M_bind_eq, <- (Hobject (force sub) this1).
    destruct (encodeObject force _ (force sub) this1) as [[subRequest this2]|]; [|done].
    by destruct (decide (length input = 0)).
  - cbn [typeof]. rewrite decide_False, decide_True by done.
    rewrite bool_decide_eq_true_2 by done. cbn [andb].
    destruct (codec encoder) as [sub|]; [|done].
    rewrite M_bind_eq, <- (Hobject (force sub) this1).
    destruct (encodeObject force _ (force sub) this1) as [[subRequest this2]|]; [|done].
    by destruct (decide (length input = 0)).
Qed.

Lemma encodeEntry_succeeds codec_ fieldName fieldValue this :
  field_decided force fieldValue →
  succeeds (encodeEntry (encodeField force) codec_ fieldName fieldValue this)
  = validEntry (validField force) codec_ fieldName fieldValue.
Proof.
  intros Hfield. unfold encodeEntry, validEntry.
  destruct (get codec_ fieldName); [apply Hfield..|].
  rewrite M_bind_eq. unfold lift. by destruct (interpolate codec_).
Qed.

Lemma encode_decided value : object_decided force value ∧ field_decided force value.
Proof.
  induction value as [| | | | |items IH|props IH] using JsValue_nested_ind;
    try (split; [by intros ? ?|]; intros field d this;
         rewrite encodeField_eq; cbn [typeof Array_isArray];
         rewrite decide_False by done; destruct (codec d); [|done];
         first [ rewrite decide_False by done; reflexivity
               | rewrite decide_True by done; reflexivity ]).
  - split; [by intros ? ?|]. intros field d this. by rewrite encodeField_number.
  - split.
    + intros codec_ this. cbn [encodeObject validObject]. rewrite M_bind_eq.
      rewrite <- (mapM_indexed_succeeds
                    (λ i fieldValue, encodeEntry (encodeField force) codec_ (pretty i) fieldValue)
                    (λ i fieldValue, validEntry (validField force) codec_ (pretty i) fieldValue)
                    items) with (i := 0) (this := this).
      * by destruct (mapM_indexed _ 0 items this) as [[request this1]|].
      * eapply Forall_impl; [exact IH|]. intros x [_ Hx] i st.
        by apply encodeEntry_succeeds.
    + intros field d this. rewrite encodeField_eq.
      cbn [typeof Array_isArray index]. rewrite decide_False by done.
      rewrite encodeFunction_succeeds.
      * unfold validField. cbn [validField_]. destruct (args d); [|done].
        rewrite validSecond_eq. by destruct (item items 1).
      * unfold item. destruct (items !! 1) as [x|] eqn:Hx; cbn.
        -- by eapply (Forall_lookup_1 _ _ _ _ IH Hx).
        -- by intros ? ?.
  - assert (object_decided force (VObject props)) as Hobject.
    { intros codec_ this. rewrite encodeObject_object.
      change (validObject force (VObject props) codec_)
        with (forallb (λ p, validEntry (validField force) codec_ p.1 p.2) props).
      rewrite <- (mapM_succeeds
                    (λ '(fieldName, fieldValue),
                       encodeEntry (encodeField force) codec_ fieldName fieldValue)
                    (λ p, validEntry (validField force) codec_ p.1 p.2) props)
        with (this := this).
      - by destruct (@mapM M _ _ _ _ _ _ this) as [[request this1]|].
      - eapply Forall_impl; [exact IH|]. intros [k v] [_ Hv] st.
        by apply encodeEntry_succeeds. }
    split; [done|]. intros field d this. rewrite encodeField_eq.
    cbn [typeof Array_isArray]. rewrite decide_False by done.
    unfold validField. cbn [validField_].
    destruct (codec d) as [sub|]; [|done]. rewrite decide_True, M_bind_eq by done.
    rewrite <- (Hobject (force sub) this).
    by destruct (encodeObject force (VObject props) (force sub) this) as [[nested this1]|].
Qed.

End Validity_facts.

(** X12. What the runtime checks amount to: [encodeObject] returns, on
    any instance, exactly for the selections that [validObject] accepts,
    and so does [encodeRequest].  A selection is accepted when, at every
    level, each field name is found by the codec lookup and its value is
    a number, or a keyed object on a field with a sub-codec, or a tuple on
    a field with [args] whose parameters are not [null]/[undefined],
    whose supplied arguments all have an encoder that accepts them, and
    whose sub-selection is a number or an accepted object. *)
Theorem encodeObject_succeeds force operationType obj codec_ this :
  succeeds (encodeObject force obj codec_ this) = validObject force obj codec_
  ∧ succeeds (encodeRequest force operationType obj codec_) = validObject force obj codec_.
Proof.
  destruct (encode_decided force obj) as [Hobject _]. split; [apply Hobject|].
  unfold encodeRequest. rewrite <- (Hobject codec_ GraphQLRequest_new).
  by destruct (encodeObject force obj codec_ GraphQLRequest_new) as [[? ?]|].
Qed.

Example validObject_nested :
  validObject Example.force Example.getUserWithFriends Example.Query = true.
Proof. vm_compute. reflexivity. Qed.

Example validObject_unknown_argument :
  validObject Example.force
    (VObject [("getUser", VArray [VObject [("age", Example.one)]; Example.one])])
    Example.Query = false.
Proof. vm_compute. reflexivity. Qed.

(** * The installer *)

(** X13. Whatever architecture and platform the installer runs on, the
    file it asks the release for is a target the publishing workflow
    builds, and that build is the one named after this platform and
    architecture. *)
Theorem getExecutableName_published arch platform name :
  getExecutableName arch platform = Ok name →
  ∃ build, build ∈ matrix ∧ TARGET build = name ∧
           String.prefix (platform +:+ "-" +:+ arch) (NAME build) = true.
Proof.
  unfold getExecutableName, unsupported.
  repeat (case_decide; [subst|]); try discriminate; intros [= <-];
    let rec find_build builds :=
      lazymatch builds with
      | ?build :: ?rest =>
          first [ exists build; split;
                  [ apply list_elem_of_In; cbn; tauto | split; reflexivity ]
                | find_build rest ]
      end in
    let builds := eval unfold matrix in matrix in find_build builds.
Qed.

Lemma getExecutableName_published_witness :
  ∃ build, build ∈ matrix ∧ TARGET build = "aarch64-apple-darwin" ∧
           String.prefix ("darwin" +:+ "-" +:+ "arm64") (NAME build) = true.
Proof.
  apply (getExecutableName_published "arm64" "darwin" "aarch64-apple-darwin").
  reflexivity.
Defined.

(** X14. Two supported machines get the same file only if they have the
    same architecture and the same platform. *)
Theorem getExecutableName_injective arch platform arch' platform' name :
  getExecutableName arch platform = Ok name →
  getExecutableName arch' platform' = Ok name →
  arch = arch' ∧ platform = platform'.
Proof.
  intros Hfirst Hsecond. unfold getExecutableName, unsupported in *.
  repeat case_decide; by simplify_eq.
Qed.

Lemma getExecutableName_injective_witness :
  "x64" = "x64" ∧ "linux" = "linux".
Proof.
  apply (getExecutableName_injective "x64" "linux" "x64" "linux" "x86_64-unknown-linux-gnu");
    reflexivity.
Defined.
